(** * api-cache: a GitHub API read cache (server/main.go, http_utils/util.go)

    A shallow embedding of the cache server and of its paged fetcher,
    followed by the properties of the refresh cycle, of the sorted views and
    of the HTTP handlers.

    Go values are modelled as follows:
    - [string] and [[]byte] are byte sequences: Rocq's [string];
    - [int] is a 64-bit integer: [Z] (the few places where the width shows,
      in [strconv.Atoi], clamp explicitly);
    - a panic is the [Panic] outcome of the [outcome] type; code that may
      loop for ever takes fuel and reports [OutOfFuel];
    - [*viewElm] pointers are addresses into an allocation arena, so that
      the identity of a record is visible in the model;
    - the network and the functions of Go's library that are no part of the
      repository ([sort.Slice], [encoding/json]) are parameters, constrained
      by what their documentation promises. *)

From Stdlib Require Import ZArith Ascii String List Permutation Sorted Lia Bool.
From Stdlib Require Import DecimalString.
From stdpp Require Import base gmap strings list.

Local Open Scope Z_scope.

#[local] Arguments String.append !s1 s2 : simpl nomatch.

(** ** Outcomes *)

(** What running a piece of Go code gives: a value, a panic with its message,
    or no answer within the fuel given to a loop. *)
Inductive outcome (A : Type) : Type :=
| Ok (a : A)
| Panic (msg : string)
| OutOfFuel.
Arguments Ok {A} a.
Arguments Panic {A} msg.
Arguments OutOfFuel {A}.

Definition obind {A B} (m : outcome A) (k : A -> outcome B) : outcome B :=
  match m with
  | Ok a => k a
  | Panic msg => Panic msg
  | OutOfFuel => OutOfFuel
  end.

Global Instance outcome_bind : MBind outcome := fun A B k m => obind m k.
Global Instance outcome_ret : MRet outcome := @Ok.

Definition is_Ok {A} (m : outcome A) : bool :=
  match m with Ok _ => true | _ => false end.

Definition is_Panic {A} (m : outcome A) : bool :=
  match m with Panic _ => true | _ => false end.

(** [l[i]] on a Go slice: a run-time panic when [i] is out of range. *)
Definition index {A} (l : list A) (i : Z) : outcome A :=
  if i <? 0 then Panic "index out of range"
  else match l !! Z.to_nat i with
       | Some x => Ok x
       | None => Panic "index out of range"
       end.

(** ** Go's [strings] and [strconv], as far as the server uses them *)

Module GoStrings.

(** The double quote, which a string literal cannot hold. *)
Definition dquote : string := String "034"%char EmptyString.

Fixpoint drop (n : nat) (s : string) : string :=
  match n, s with
  | O, _ => s
  | S n', String _ s' => drop n' s'
  | S _, EmptyString => EmptyString
  end.

Fixpoint rev_append (s acc : string) : string :=
  match s with
  | EmptyString => acc
  | String c s' => rev_append s' (String c acc)
  end.

Definition rev (s : string) : string := rev_append s EmptyString.

Definition HasPrefix (s prefix : string) : bool := String.prefix prefix s.

Definition HasSuffix (s suffix : string) : bool :=
  String.prefix (rev suffix) (rev s).

Definition TrimPrefix (s prefix : string) : string :=
  if HasPrefix s prefix then drop (String.length prefix) s else s.

Definition TrimSuffix (s suffix : string) : string :=
  if HasSuffix s suffix
  then rev (drop (String.length suffix) (rev s))
  else s.

(** [split_from sep skip s]: the pieces of [s] between the occurrences of
    a non-empty [sep], leftmost first and not overlapping; [skip] counts
    the bytes of an occurrence that are still to be passed over. *)
Fixpoint split_from (sep : string) (skip : nat) (s : string) : list string :=
  match s with
  | EmptyString => [EmptyString]
  | String c s' =>
      match skip with
      | S k => split_from sep k s'
      | O =>
          if String.prefix sep s
          then EmptyString :: split_from sep (String.length sep - 1)%nat s'
          else match split_from sep O s' with
               | h :: t => String c h :: t
               | [] => [String c EmptyString]
               end
      end
  end.

Fixpoint explode (s : string) : list string :=
  match s with
  | EmptyString => []
  | String c s' => String c EmptyString :: explode s'
  end.

(** [strings.Split(s, sep)]. With an empty separator Go cuts after each
    UTF-8 sequence; the server never does that, and [explode] cuts after
    each byte. *)
Definition Split (s sep : string) : list string :=
  match sep with
  | EmptyString => explode s
  | _ => split_from sep O s
  end.

(** White space as [unicode.IsSpace] has it, read off the UTF-8 bytes at
    the head of a string: the number of bytes of a leading white-space
    character, or 0. *)
Definition ascii_space (c : ascii) : bool :=
  let n := N_of_ascii c in
  ((9 <=? n) && (n <=? 13) || (n =? 32))%N.

(** The UTF-8 forms of the white space beyond ASCII: U+0085 and U+00A0 in
    two bytes; U+1680, U+2000 to U+200A, U+2028, U+2029, U+202F, U+205F and
    U+3000 in three. *)
Definition space2 (c d : ascii) : bool :=
  let n := N_of_ascii d in
  ((N_of_ascii c =? 194) && ((n =? 133) || (n =? 160)))%N.

Definition space3 (c d e : ascii) : bool :=
  let k := N_of_ascii c in
  let m := N_of_ascii d in
  let n := N_of_ascii e in
  ((k =? 225) && (m =? 154) && (n =? 128)
   || (k =? 226) && (m =? 128)
      && ((128 <=? n) && (n <=? 138) || (n =? 168) || (n =? 169) || (n =? 175))
   || (k =? 226) && (m =? 129) && (n =? 159)
   || (k =? 227) && (m =? 128) && (n =? 128))%N.

Definition space_width (s : string) : nat :=
  match s with
  | EmptyString => 0%nat
  | String c s1 =>
      if ascii_space c then 1%nat else
      match s1 with
      | String d s2 =>
          if space2 c d then 2%nat else
          match s2 with
          | String e _ => if space3 c d e then 3%nat else 0%nat
          | EmptyString => 0%nat
          end
      | EmptyString => 0%nat
      end
  end.

(** The same from the end of a string, given reversed: the last character
    is decoded from its last bytes. *)
Definition space_width_rev (r : string) : nat :=
  match r with
  | EmptyString => 0%nat
  | String c r1 =>
      if ascii_space c then 1%nat else
      match r1 with
      | String d r2 =>
          if space2 d c then 2%nat else
          match r2 with
          | String e _ => if space3 e d c then 3%nat else 0%nat
          | EmptyString => 0%nat
          end
      | EmptyString => 0%nat
      end
  end.

Fixpoint trim_with (width : string -> nat) (fuel : nat) (s : string) : string :=
  match fuel with
  | O => s
  | S fuel' =>
      match width s with
      | O => s
      | S k => trim_with width fuel' (drop (S k) s)
      end
  end.

Definition TrimLeftSpace (s : string) : string :=
  trim_with space_width (String.length s) s.

Definition TrimRightSpace (s : string) : string :=
  rev (trim_with space_width_rev (String.length s) (rev s)).

(** [strings.TrimSpace]. *)
Definition TrimSpace (s : string) : string :=
  TrimRightSpace (TrimLeftSpace s).

(** [fmt.Sprintf("%v", n)] for an [int]. *)
Definition Itoa (n : Z) : string := NilZero.string_of_int (Z.to_int n).

(** The errors of [strconv]. *)
Inductive NumError := ErrSyntax | ErrRange.

Definition digit_of (c : ascii) : option Z :=
  let n := N_of_ascii c in
  if ((48 <=? n) && (n <=? 57))%N then Some (Z.of_N n - 48) else None.

(** The loop of [strconv.ParseUint] in base 10 at 64 bits: it stops at the
    first byte that is no digit, and at the first digit that makes the number
    overflow, whatever follows. *)
Definition maxUint64 : Z := 2 ^ 64 - 1.

Fixpoint parse_uint (n : Z) (s : string) : Z * option NumError :=
  match s with
  | EmptyString => (n, None)
  | String c s' =>
      match digit_of c with
      | None => (0, Some ErrSyntax)
      | Some d =>
          if maxUint64 / 10 + 1 <=? n then (maxUint64, Some ErrRange)
          else
            let n1 := n * 10 + d in
            if maxUint64 <? n1 then (maxUint64, Some ErrRange)
            else parse_uint n1 s'
      end
  end.

Definition ParseUint (s : string) : Z * option NumError :=
  match s with
  | EmptyString => (0, Some ErrSyntax)
  | _ => parse_uint 0 s
  end.

(** [strconv.Atoi] on a 64-bit platform, which is [ParseInt(s, 10, 0)]: an
    optional sign and at least one decimal digit; 0 with [ErrSyntax] for
    anything else, and the nearest representable value with [ErrRange] when
    the number does not fit. (The fast path of [Atoi] for short strings
    gives the same values.) *)
Definition Atoi (s : string) : Z * option NumError :=
  let '(neg, ds) :=
    match s with
    | String "-"%char s' => (true, s')
    | String "+"%char s' => (false, s')
    | _ => (false, s)
    end in
  match ParseUint ds with
  | (_, Some ErrSyntax) => (0, Some ErrSyntax)
  | (un, _) =>
      let cutoff := 2 ^ 63 in
      if negb neg && (cutoff <=? un) then (cutoff - 1, Some ErrRange)
      else if neg && (cutoff <? un) then (- cutoff, Some ErrRange)
      else (if neg then - un else un, None)
  end.

End GoStrings.

Import GoStrings.

Example Split_path :
  Split "/view/top/3/forks" "/" = [""; "view"; "top"; "3"; "forks"].
Proof. reflexivity. Qed.

Example Split_empty : Split "" "," = [""].
Proof. reflexivity. Qed.

Example Split_sep2 : Split "a--b-c--" "--" = ["a"; "b-c"; ""].
Proof. reflexivity. Qed.

Example TrimSpace_ex : TrimSpace "  a b   " = "a b".
Proof. reflexivity. Qed.

Example TrimSpace_nbsp :
  TrimSpace (String "194" (String "160" ("x" +:+ String "226" (String "128" (String "137" "")))))
  = "x".
Proof. reflexivity. Qed.

Example TrimSuffix_ex : TrimSuffix "<u>" ">" = "<u".
Proof. reflexivity. Qed.

Example Itoa_ex : (Itoa 0, Itoa 42, Itoa (-7)) = ("0", "42", "-7").
Proof. reflexivity. Qed.

Example Atoi_ex :
  (Atoi "12", Atoi "-3", Atoi "+", Atoi "x1", Atoi "", Atoi "9223372036854775808")
  = ((12, None), (-3, None), (0, Some ErrSyntax), (0, Some ErrSyntax),
     (0, Some ErrSyntax), (9223372036854775807, Some ErrRange)).
Proof. reflexivity. Qed.

Example Atoi_range :
  (Atoi "-9223372036854775808", Atoi "-9223372036854775809",
   Atoi "18446744073709551616", Atoi "99999999999999999999x", Atoi "1 ")
  = ((-9223372036854775808, None), (-9223372036854775808, Some ErrRange),
     (9223372036854775807, Some ErrRange), (9223372036854775807, Some ErrRange),
     (0, Some ErrSyntax)).
Proof. reflexivity. Qed.

(** ** Go's [time.Time], as far as the server uses it *)

Module GoTime.

(** An instant: nanoseconds since the Unix epoch. *)
Definition Time := Z.

(** [t.After(u)]. *)
Definition After (t u : Time) : bool := u <? t.

(** The zone in force at an instant: its abbreviation and its offset east
    of UTC in seconds. A [Location] gives the zone for each Unix second. *)
Record Zone := { abbrev : string; offset : Z }.
Definition Location := Z -> Zone.

Definition UTC : Location := fun _ => {| abbrev := "UTC"; offset := 0 |}.

(** [appendInt(b, x, width)]: decimal, zero-padded to [width] digits,
    the sign first. *)
Fixpoint zeros (n : nat) : string :=
  match n with O => EmptyString | S n' => String "0"%char (zeros n') end.

Definition appendInt (x : Z) (width : nat) : string :=
  let ds := Itoa (Z.abs x) in
  (if x <? 0 then "-" else "")
    +:+ zeros (width - String.length ds) +:+ ds.

(** Year, month and day of a day number counted from 1970-01-01, in the
    proleptic Gregorian calendar. *)
Definition civil (days : Z) : Z * Z * Z :=
  let z := days + 719468 in
  let era := z / 146097 in
  let doe := z - era * 146097 in
  let yoe := (doe - doe / 1460 + doe / 36524 - doe / 146096) / 365 in
  let doy := doe - (365 * yoe + yoe / 4 - yoe / 100) in
  let mp := (5 * doy + 2) / 153 in
  let d := doy - (153 * mp + 2) / 5 + 1 in
  let m := if mp <? 10 then mp + 3 else mp - 9 in
  let y := yoe + era * 400 + (if m <=? 2 then 1 else 0) in
  (y, m, d).

Fixpoint strip_zeros (r : string) : string :=
  match r with
  | String "0"%char r' => strip_zeros r'
  | _ => r
  end.

(** The [.999999999] verb: nothing for a whole second, else the
    nanoseconds without their trailing zeros. *)
Definition appendNano (nanosec : Z) : string :=
  if nanosec =? 0 then ""
  else "." +:+ rev (strip_zeros (rev (appendInt nanosec 9))).

(** The [-0700] verb. Go's division truncates. *)
Definition appendNumTZ (off : Z) : string :=
  let zone := Z.quot off 60 in
  (if zone <? 0 then "-" else "+")
    +:+ appendInt (Z.quot (Z.abs zone) 60) 2
    +:+ appendInt (Z.rem (Z.abs zone) 60) 2.

(** The [MST] verb: the abbreviation, or the offset when the zone has
    none. *)
Definition appendTZ (z : Zone) : string :=
  match abbrev z with
  | EmptyString => appendNumTZ (offset z)
  | name => name
  end.

(** [t.In(loc).String()], the layout being
    [2006-01-02 15:04:05.999999999 -0700 MST]; a [Time] decoded from JSON
    carries no monotonic clock reading, so nothing follows the zone. *)
Definition String_in (loc : Location) (t : Time) : string :=
  let unix := t / 1000000000 in
  let nanosec := t mod 1000000000 in
  let z := loc unix in
  let abs := unix + offset z in
  let '(y, m, d) := civil (abs / 86400) in
  let sod := abs mod 86400 in
  appendInt y 4 +:+ "-" +:+ appendInt m 2 +:+ "-" +:+ appendInt d 2
    +:+ " " +:+ appendInt (sod / 3600) 2
    +:+ ":" +:+ appendInt (sod mod 3600 / 60) 2
    +:+ ":" +:+ appendInt (sod mod 60) 2
    +:+ appendNano nanosec
    +:+ " " +:+ appendNumTZ (offset z)
    +:+ " " +:+ appendTZ z.

End GoTime.

Import GoTime.

(** America/Los_Angeles in 2018: daylight saving time from 11 March 10:00 UTC
    to 4 November 09:00 UTC. *)
Definition LosAngeles2018 : Location := fun unix =>
  if (1520762400 <=? unix) && (unix <? 1541322000)
  then {| abbrev := "PDT"; offset := -25200 |}
  else {| abbrev := "PST"; offset := -28800 |}.

Definition Kolkata : Location := fun _ => {| abbrev := "IST"; offset := 19800 |}.

Example String_in_utc :
  String_in UTC (1516017600 * 1000000000) = "2018-01-15 12:00:00 +0000 UTC".
Proof. reflexivity. Qed.

Example String_in_pdt :
  String_in LosAngeles2018 (1531656000 * 1000000000 + 120000000)
  = "2018-07-15 05:00:00.12 -0700 PDT".
Proof. reflexivity. Qed.

Example String_in_ist :
  String_in Kolkata (951827696 * 1000000000) = "2000-02-29 18:04:56 +0530 IST".
Proof. reflexivity. Qed.

Example String_in_old :
  String_in UTC (-1 * 1000000000) = "1969-12-31 23:59:59 +0000 UTC".
Proof. reflexivity. Qed.

(** ** [net/http]: messages and the upstream *)

(** [http.Header], with its keys in canonical form: [Add] appends a value,
    [Get] gives the first value of a key, or the empty string. *)
Definition Header := list (string * string).

Definition Header_Add (h : Header) (key value : string) : Header :=
  h ++ [(key, value)].

Fixpoint Header_Get (h : Header) (key : string) : string :=
  match h with
  | [] => ""
  | (k, v) :: h' => if String.eqb k key then v else Header_Get h' key
  end.

Record Request := {
  Method : string;
  URL : string;
  ReqHeader : Header;
  ReqBody : string
}.

(** A request as a handler receives it: [r.Method], the decoded
    [r.URL.Path], the path and query as [r.URL] prints them, [r.Header] and
    the bytes of [r.Body]. *)
Record Incoming := {
  InMethod : string;
  InPath : string;
  InURL : string;
  InHeader : Header;
  InBody : string
}.

(** A response as the server reads it: the status, the headers, and the
    bytes that [ioutil.ReadAll] gives for the body (its error is dropped by
    both callers). *)
Record Response := {
  StatusCode : Z;
  RespHeader : Header;
  RespBody : string
}.

(** The world outside the process: whether [http.NewRequest] accepts a URL
    (it fails on one that does not parse), and what [http.DefaultClient.Do]
    gives for a request: an error, or a response of any status. *)
Record Net := {
  NewRequest_err : string -> option string;
  Do : Request -> string + Response
}.

(** ** http_utils/util.go *)

Module http_utils.

(** Helper struct that aids in paged gets by keeping track of the next
    link. *)
Record PagedGet := {
  nextLink : string;
  authHdr : string
}.

Definition api_url (path : string) : string := "https://api.github.com" +:+ path.

Definition NewPagedGet (path apiToken : string) : PagedGet :=
  {| nextLink := api_url path;
     authHdr := if String.eqb apiToken "" then "" else "token " +:+ apiToken |}.

Definition rel_next : string := "rel=" +:+ dquote +:+ "next" +:+ dquote.

(** The request that [GetPage] sends for the stored link. *)
Definition page_request (g : PagedGet) : Request :=
  let h := Header_Add [] "Accept" "application/vnd.github.v3+json" in
  {| Method := "GET";
     URL := nextLink g;
     ReqHeader := if String.eqb (authHdr g) "" then h
                  else Header_Add h "Authorization" (authHdr g);
     ReqBody := "" |}.

(** The search for the link to the next page: the loop over [linkRels].
    [l[1]] is read before it is known to exist. *)
Fixpoint scan_links (g : PagedGet) (body : string) (linkRels : list string)
  : outcome (string * bool * PagedGet) :=
  match linkRels with
  | [] => Ok (body, false, g)
  | lr :: rest =>
      let l := Split lr ";" in
      l1 ← index l 1;
      if String.eqb (TrimSpace l1) rel_next then
        l0 ← index l 0;
        let link := TrimSpace l0 in
        let link := TrimPrefix link "<" in
        let link := TrimSuffix link ">" in
        Ok (body, true, {| nextLink := link; authHdr := authHdr g |})
      else scan_links g body rest
  end.

(** Gets next page and whether there are more pages remaining. The
    receiver is updated in place: the new [PagedGet] is returned. *)
Definition GetPage (net : Net) (g : PagedGet)
  : outcome (string * bool * PagedGet) :=
  if String.eqb (nextLink g) "" then Panic "GetPage beyond page chain."
  else
    match NewRequest_err net (nextLink g) with
    | Some err => Panic ("Get request failed " +:+ err)
    | None =>
        match Do net (page_request g) with
        | inl err =>
            Panic ("Failed to issue http GET on url=" +:+ nextLink g
                   +:+ ", err=" +:+ err)
        | inr resp =>
            let body := RespBody resp in
            let linksRelStr := Header_Get (RespHeader resp) "Link" in
            if String.eqb linksRelStr "" then Ok (body, false, g)
            else scan_links g body (Split linksRelStr ",")
        end
    end.

(** The request that [Forward] sends for an incoming request [r]: the
    method is the constant ["GET"], the header map and the body are those
    of [r]. *)
Definition forward_request (r : Incoming) : Request :=
  {| Method := "GET";
     URL := "https://api.github.com" +:+ InURL r;
     ReqHeader := InHeader r;
     ReqBody := InBody r |}.

(** [Forward(w, r)]: what is written to [w]. The status and the headers
    of the upstream response are not copied. *)
Definition Forward (net : Net) (r : Incoming) : outcome string :=
  let url := "https://api.github.com" +:+ InURL r in
  match NewRequest_err net url with
  | Some err => Panic ("Get request failed " +:+ err)
  | None =>
      match Do net (forward_request r) with
      | inl err =>
          Panic ("Failed to issue http GET on url=" +:+ url
                 +:+ ", err=" +:+ err)
      | inr resp => Ok (RespBody resp)
      end
  end.

End http_utils.

Import http_utils.

(** The page loop of [refreshNetflixRepos],
    [for next { body, next = g.GetPage(); ... }], with what it does to each
    body as a parameter: [step] takes the loop's variables and the body of
    the page. *)
Fixpoint pagesLoop {St : Type} (net : Net) (step : St -> string -> outcome St)
    (fuel : nat) (g : PagedGet) (st : St) : outcome (St * PagedGet) :=
  match fuel with
  | O => OutOfFuel
  | S fuel' =>
      '(body, next, g') ← GetPage net g;
      st' ← step st body;
      if next : bool then pagesLoop net step fuel' g' st' else Ok (st', g')
  end.

(** The loop body that only keeps the bodies, in the order of arrival. *)
Definition keep_body (bodies : list string) (body : string)
  : outcome (list string) := Ok (bodies ++ [body]).

(** ** Go's library, as parameters *)

(** What [sort.Slice] asks of its [less]: "a transitive ordering", of which
    the negation is transitive as well. *)
Record LessOrder {A : Type} (less : A -> A -> bool) : Prop := {
  less_irrefl : forall x, less x x = false;
  less_trans : forall x y z, less x y = true -> less y z = true -> less x z = true;
  less_neg_trans :
    forall x y z, less x y = false -> less y z = false -> less x z = false
}.

(** [sort.Slice]: the result holds the elements of the slice, each as often
    as before, and no element is [less] than one before it. Nothing is said
    of the order of elements that compare equal: the sort is not stable. *)
Class SliceSorter := {
  sort_Slice : forall {A : Type}, (A -> A -> bool) -> list A -> list A;
  sort_Slice_perm :
    forall (A : Type) (less : A -> A -> bool) (l : list A),
      Permutation (sort_Slice less l) l;
  sort_Slice_sorted :
    forall (A : Type) (less : A -> A -> bool) (l : list A),
      LessOrder less ->
      forall (i j : nat) (x y : A),
        (i < j)%nat ->
        sort_Slice less l !! i = Some x ->
        sort_Slice less l !! j = Some y ->
        less y x = false
}.

(** Modelled from the spec: the declaration of [github_types.Repository] is
    not among the sources. Of the upstream entity only the fields [name],
    [forks], [updated_at], [open_issues] and [stars] matter; they are
    pointers, [None] being [nil], since the server dereferences them. *)
Record Repository := {
  Name : option string;
  ForksCount : option Z;
  UpdatedAt : option Time;
  OpenIssuesCount : option Z;
  StargazersCount : option Z
}.

(** [encoding/json] at the type [[]*github_types.Repository]:
    [Unmarshal body] gives what [json.Unmarshal(body, &pageRepos)] leaves in
    a [pageRepos] that was [nil], and its error; [Marshal repos] gives the
    bytes of [json.Marshal(repos)]. *)
Record Json := {
  Unmarshal : string -> list (option Repository) * option string;
  Marshal : list (option Repository) -> string
}.

(** ** server/main.go *)

Module server.

(** Useful constants for paths we will be serving. *)
Definition kRouteHealthCheck : string := "/healthcheck".
Definition kGitHubRoot : string := "/".
Definition kGitHubNetflix : string := "/orgs/Netflix".
Definition kGitHubNetflixMembers : string := "/orgs/Netflix/members".
Definition kGitHubNetflixRepos : string := "/orgs/Netflix/repos".
Definition kViews : string := "/view/top/".

(** viewElm caches netflix/repos fields that are required to satisfy the
    views API. *)
Record viewElm := {
  name : string;
  forks : Z;
  updated : Time;
  openIssues : Z;
  stars : Z
}.

(** A [*viewElm]: the address of a record in the arena of the records
    allocated so far. *)
Definition ptr := nat.

(** The server object, with the arena its pointers point into. The lock
    is not a field: each function below that takes it is one step. *)
Record Server := {
  port : Z;
  apiToken : string;
  caches : gmap string string;
  topForks : list ptr;
  lastUpdated : list ptr;
  topOpenIssues : list ptr;
  topStars : list ptr;
  ready : bool;
  heap : list viewElm
}.

(** Construct a new server object. *)
Definition NewServer (port : Z) (apiToken : string) : Server :=
  {| port := port; apiToken := apiToken; caches := ∅;
     topForks := []; lastUpdated := []; topOpenIssues := []; topStars := [];
     ready := false; heap := [] |}.

(** [*p]. *)
Definition deref {A} (p : option A) : outcome A :=
  match p with
  | Some a => Ok a
  | None => Panic "invalid memory address or nil pointer dereference"
  end.

(** [p.f] for a [p : *viewElm] and an integer field [f]; a pointer that
    points nowhere reads as 0, which no pointer of the server does. *)
Definition field (h : list viewElm) (f : viewElm -> Z) (p : ptr) : Z :=
  match h !! p with
  | Some e => f e
  | None => 0
  end.

(** The [less] of a view: the greater key sorts first. *)
Definition greater (h : list viewElm) (f : viewElm -> Z) (p q : ptr) : bool :=
  field h f q <? field h f p.

(** The variables of the page loop of [refreshNetflixRepos]. *)
Record loopVars := {
  elms : list ptr;
  repos : list (option Repository);
  arena : list viewElm
}.

(** The body of [for _, r := range pageRepos]. *)
Definition process_repo (st : loopVars) (r : option Repository)
  : outcome loopVars :=
  let repos' := repos st ++ [r] in
  r' ← deref r;
  n ← deref (Name r');
  f ← deref (ForksCount r');
  u ← deref (UpdatedAt r');
  o ← deref (OpenIssuesCount r');
  s ← deref (StargazersCount r');
  let ve := length (arena st) in
  Ok {| elms := elms st ++ [ve];
        repos := repos';
        arena := arena st
                 ++ [{| name := n; forks := f; updated := u;
                        openIssues := o; stars := s |}] |}.

Fixpoint process_page (st : loopVars) (pageRepos : list (option Repository))
  : outcome loopVars :=
  match pageRepos with
  | [] => Ok st
  | r :: rest => st' ← process_repo st r; process_page st' rest
  end.

(** The handling of one page: the error of [json.Unmarshal] is dropped. *)
Definition repos_step (json : Json) (st : loopVars) (body : string)
  : outcome loopVars :=
  let pageRepos := (Unmarshal json body).1 in
  process_page st pageRepos.

(** The four routes that are refreshed. *)
Inductive Route := Root | Netflix | NetflixRepos | NetflixMembers.

Definition Route_path (r : Route) : string :=
  match r with
  | Root => kGitHubRoot
  | Netflix => kGitHubNetflix
  | NetflixRepos => kGitHubNetflixRepos
  | NetflixMembers => kGitHubNetflixMembers
  end.

(** What a handler writes: the status (200 unless [WriteHeader] says
    otherwise), the headers it sets and the body. *)
Record Written := {
  Status : Z;
  WHeader : Header;
  WBody : string
}.

(** The handlers that [NewServer] registers, and the redirection that the
    mux adds to a pattern that ends in a slash. *)
Inductive handler :=
| HealthCheckH | RootH | NetflixH | NetflixMembersH | NetflixReposH | ViewsH
| RedirectH.

Definition StatusOK : Z := 200.
Definition StatusServiceUnavailable : Z := 503.

Section WithLibrary.

Context `{SliceSorter}.
Variable json : Json.
Variable Local : Location.

(** Helper functions to refresh the various caches. [refreshRoot],
    [refreshNetflix] and [refreshNetflixMembers] differ in their path
    only: they keep the first page. *)
Definition refreshSingle (path : string) (net : Net) (s : Server)
  : outcome Server :=
  let g := NewPagedGet path (apiToken s) in
  '(body, _, _) ← GetPage net g;
  Ok {| port := port s; apiToken := apiToken s;
        caches := <[path := body]> (caches s);
        topForks := topForks s; lastUpdated := lastUpdated s;
        topOpenIssues := topOpenIssues s; topStars := topStars s;
        ready := ready s; heap := heap s |}.

Definition refreshRoot := refreshSingle kGitHubRoot.
Definition refreshNetflix := refreshSingle kGitHubNetflix.
Definition refreshNetflixMembers := refreshSingle kGitHubNetflixMembers.

(** The second half of [refreshNetflixRepos], under the lock: the
    flattened body and the four views, each cleared, filled with [elms]
    and sorted. *)
Definition publishRepos (s : Server) (st : loopVars) : Server :=
  let h := arena st in
  {| port := port s; apiToken := apiToken s;
     caches := <[kGitHubNetflixRepos := Marshal json (repos st)]> (caches s);
     topForks := sort_Slice (greater h forks) (elms st);
     lastUpdated := sort_Slice (greater h updated) (elms st);
     topOpenIssues := sort_Slice (greater h openIssues) (elms st);
     topStars := sort_Slice (greater h stars) (elms st);
     ready := ready s; heap := h |}.

Definition refreshNetflixRepos (net : Net) (fuel : nat) (s : Server)
  : outcome Server :=
  let g := NewPagedGet kGitHubNetflixRepos (apiToken s) in
  '(st, _) ← pagesLoop net (repos_step json) fuel g
               {| elms := []; repos := []; arena := heap s |};
  Ok (publishRepos s st).

Definition refreshRoute (net : Net) (fuel : nat) (r : Route) (s : Server)
  : outcome Server :=
  match r with
  | Root => refreshRoot net s
  | Netflix => refreshNetflix net s
  | NetflixRepos => refreshNetflixRepos net fuel s
  | NetflixMembers => refreshNetflixMembers net s
  end.

Fixpoint refreshRoutes (net : Net) (fuel : nat) (rs : list Route)
    (s : Server) : outcome Server :=
  match rs with
  | [] => Ok s
  | r :: rest => s' ← refreshRoute net fuel r s; refreshRoutes net fuel rest s'
  end.

Definition markReady (s : Server) : Server :=
  if ready s then s
  else {| port := port s; apiToken := apiToken s; caches := caches s;
          topForks := topForks s; lastUpdated := lastUpdated s;
          topOpenIssues := topOpenIssues s; topStars := topStars s;
          ready := true; heap := heap s |}.

(** Refresh the cached APIs. The four goroutines take the lock one
    after the other, in an order that the scheduler chooses: [order].
    A panic in one of them is recovered nowhere and ends the process. *)
Definition refreshCaches_in (order : list Route) (net : Net) (fuel : nat)
    (s : Server) : outcome Server :=
  s' ← refreshRoutes net fuel order s;
  Ok (markReady s').

Definition refreshCaches : Net -> nat -> Server -> outcome Server :=
  refreshCaches_in [Root; Netflix; NetflixRepos; NetflixMembers].

(** Run the server: one refresh every five minutes, for ever. [nets]
    gives the upstream at each of the cycles that are run. *)
Fixpoint Run (nets : list Net) (fuel : nat) (s : Server) : outcome Server :=
  match nets with
  | [] => Ok s
  | net :: rest => s' ← refreshCaches net fuel s; Run rest fuel s'
  end.

(** HTTP handler functions. *)
Definition handleHealthCheck (s : Server) : Written :=
  if ready s
  then {| Status := StatusOK; WHeader := []; WBody := "" |}
  else {| Status := StatusServiceUnavailable; WHeader := []; WBody := "" |}.

Definition cached (s : Server) (path : string) : Written :=
  {| Status := StatusOK;
     WHeader := [("Content-Type", "application/json; charset=utf-8")];
     WBody := default "" (caches s !! path) |}.

Definition handleRoot (net : Net) (s : Server) (r : Incoming)
  : outcome Written :=
  if String.eqb (InPath r) "/" then Ok (cached s kGitHubRoot)
  else
    body ← Forward net r;
    Ok {| Status := StatusOK; WHeader := []; WBody := body |}.

Definition handleNetflix (s : Server) : Written := cached s kGitHubNetflix.
Definition handleNetflixRepos (s : Server) : Written :=
  cached s kGitHubNetflixRepos.
Definition handleNetflixMembers (s : Server) : Written :=
  cached s kGitHubNetflixMembers.

(** [s.v[ii]] followed by the reading of its fields. *)
Definition elm_at (s : Server) (v : list ptr) (ii : Z) : outcome viewElm :=
  p ← index v ii;
  deref (heap s !! p).

(** The four [fmt.Sprintf] of [handleViews]. *)
Definition sprint_count (nm : string) (n : Z) : string :=
  "[" +:+ dquote +:+ "Netflix/" +:+ nm +:+ dquote +:+ "," +:+ Itoa n +:+ "]".

Definition sprint_updated (nm : string) (t : Time) : string :=
  "[" +:+ dquote +:+ "Netflix/" +:+ nm +:+ dquote +:+ "," +:+ dquote
    +:+ TrimSuffix (String_in Local t) "-0700 PDT" +:+ "Z" +:+ dquote +:+ "]".

(** The [if] chain in the loop of [handleViews]: [elm] stays empty for
    a [sortBy] that is none of the four. *)
Definition view_elm (s : Server) (sortBy : string) (ii : Z) : outcome string :=
  if String.eqb sortBy "forks" then
    e ← elm_at s (topForks s) ii; Ok (sprint_count (name e) (forks e))
  else if String.eqb sortBy "last_updated" then
    e ← elm_at s (lastUpdated s) ii; Ok (sprint_updated (name e) (updated e))
  else if String.eqb sortBy "open_issues" then
    e ← elm_at s (topOpenIssues s) ii;
    Ok (sprint_count (name e) (openIssues e))
  else if String.eqb sortBy "stars" then
    e ← elm_at s (topStars s) ii; Ok (sprint_count (name e) (stars e))
  else Ok "".

(** [for ii := int(0); ii < count; ii++]: [todo] iterations are left,
    [ii] being [count - todo]. *)
Fixpoint views_loop (s : Server) (sortBy : string) (count : Z)
    (todo : nat) (ii : Z) (body : string) : outcome string :=
  match todo with
  | O => Ok body
  | S todo' =>
      elm ← view_elm s sortBy ii;
      let body := body +:+ elm in
      let body := if ii <? count - 1 then body +:+ "," else body in
      views_loop s sortBy count todo' (ii + 1) body
  end.

Definition handleViews (s : Server) (r : Incoming) : outcome Written :=
  let tokens := Split (TrimSpace (InPath r)) "/" in
  t3 ← index tokens 3;
  let count := (Atoi t3).1 in
  sortBy ← index tokens 4;
  body ← views_loop s sortBy count (Z.to_nat count) 0 "[";
  Ok {| Status := StatusOK; WHeader := []; WBody := body +:+ "]" |}.

(** The registrations of [NewServer], as the [http.ServeMux] resolves
    them for a clean path: a pattern that ends in a slash matches the paths
    that it is a prefix of, another pattern matches itself, and the longest
    match wins; the mux itself redirects [/view/top] to [/view/top/]. A path
    that is not clean, with an empty segment or with a segment [.] or [..],
    is redirected by the mux to its clean form and comes to no handler:
    [mux] and [serve] are no model of the server for such a path, and what is
    stated of [serve] below is stated of clean paths, or holds of the
    redirection as well. *)
Definition mux (path : string) : handler :=
  if String.eqb path kRouteHealthCheck then HealthCheckH
  else if String.eqb path kGitHubNetflix then NetflixH
  else if String.eqb path kGitHubNetflixMembers then NetflixMembersH
  else if String.eqb path kGitHubNetflixRepos then NetflixReposH
  else if String.prefix kViews path then ViewsH
  else if String.eqb path "/view/top" then RedirectH
  else RootH.

Definition StatusMovedPermanently : Z := 301.

Definition serve (net : Net) (s : Server) (r : Incoming) : outcome Written :=
  match mux (InPath r) with
  | HealthCheckH => Ok (handleHealthCheck s)
  | RootH => handleRoot net s r
  | NetflixH => Ok (handleNetflix s)
  | NetflixMembersH => Ok (handleNetflixMembers s)
  | NetflixReposH => Ok (handleNetflixRepos s)
  | ViewsH => handleViews s r
  | RedirectH =>
      Ok {| Status := StatusMovedPermanently;
            WHeader := [("Location", kViews)]; WBody := "" |}
  end.

End WithLibrary.

End server.

Import server.

(** ** A sorter that meets the contract of [sort.Slice] *)

(** Insertion sort: it shows that the contract can be met, and it runs the
    examples. It happens to keep the order of equal elements, which the
    contract does not promise. *)
Module InsertionSort.

Section Sort.

Context {A : Type} (less : A -> A -> bool).

Fixpoint insert (x : A) (l : list A) : list A :=
  match l with
  | [] => [x]
  | y :: l' => if less y x then y :: insert x l' else x :: y :: l'
  end.

Fixpoint sort (l : list A) : list A :=
  match l with
  | [] => []
  | x :: l' => insert x (sort l')
  end.

Lemma insert_perm x l : Permutation (insert x l) (x :: l).
Proof.
  induction l as [|y l IH]; simpl; [reflexivity|].
  destruct (less y x); [|reflexivity].
  rewrite IH. apply perm_swap.
Qed.

Lemma sort_perm l : Permutation (sort l) l.
Proof.
  induction l as [|x l IH]; simpl; [reflexivity|].
  rewrite insert_perm. by constructor.
Qed.

(** [x] may stand before [y]. *)
Definition before (x y : A) : Prop := less y x = false.

Hypothesis Hless : LessOrder less.

Lemma less_asym x y : less x y = true -> less y x = false.
Proof.
  intros Hxy. destruct (less y x) eqn:Hyx; [|reflexivity].
  pose proof (less_trans less Hless _ _ _ Hxy Hyx) as Hxx.
  rewrite (less_irrefl less Hless) in Hxx. discriminate.
Qed.

Lemma insert_sorted x l :
  StronglySorted before l -> StronglySorted before (insert x l).
Proof.
  induction 1 as [|y l Hl IH Hy]; simpl.
  - repeat constructor.
  - destruct (less y x) eqn:Hyx.
    + constructor; [exact IH|].
      eapply Permutation_Forall;
        [symmetry; apply insert_perm|].
      constructor; [by apply less_asym|exact Hy].
    + constructor; [by constructor|].
      constructor; [exact Hyx|].
      eapply Forall_impl; [exact Hy|].
      intros z Hz. unfold before in *.
      exact (less_neg_trans less Hless _ _ _ Hz Hyx).
Qed.

Lemma sort_sorted l : StronglySorted before (sort l).
Proof.
  induction l as [|x l IH]; simpl; [constructor|].
  by apply insert_sorted.
Qed.

End Sort.

Lemma StronglySorted_lookup {A} (R : A -> A -> Prop) (l : list A) :
  StronglySorted R l ->
  forall (i j : nat) (x y : A),
    (i < j)%nat -> l !! i = Some x -> l !! j = Some y -> R x y.
Proof.
  induction 1 as [|a l Hl IH Ha]; intros i j x y Hij Hi Hj.
  - by rewrite lookup_nil in Hi.
  - destruct j as [|j]; [lia|]. simpl in Hj.
    destruct i as [|i]; simpl in Hi.
    + injection Hi as <-.
      rewrite Forall_forall in Ha. apply Ha.
      by eapply list_elem_of_lookup_2.
    + eapply IH; [|exact Hi|exact Hj]. lia.
Qed.

#[export] Instance sorter : SliceSorter := {|
  sort_Slice := fun A less l => sort less l;
  sort_Slice_perm := fun A less l => sort_perm less l;
  sort_Slice_sorted := fun A less l Hless i j x y Hij Hi Hj =>
    StronglySorted_lookup (before less) (sort less l)
      (sort_sorted less Hless l) i j x y Hij Hi Hj
|}.

End InsertionSort.

(** ** The [Link] header *)

(** A [Link] header as GitHub sends it: entries [<url>; rel="name"], joined
    by a comma and a space. *)
Definition link_value (e : string * string) : string :=
  "<" +:+ e.1 +:+ ">; rel=" +:+ dquote +:+ e.2 +:+ dquote.

Fixpoint link_header (es : list (string * string)) : string :=
  match es with
  | [] => ""
  | [e] => link_value e
  | e :: es' => link_value e +:+ ", " +:+ link_header es'
  end.

(** The target of the first entry of relation ["next"]. *)
Fixpoint next_target (es : list (string * string)) : option string :=
  match es with
  | [] => None
  | (u, r) :: es' => if String.eqb r "next" then Some u else next_target es'
  end.

Fixpoint free_of (c : ascii) (s : string) : bool :=
  match s with
  | EmptyString => true
  | String d s' => negb (Ascii.eqb c d) && free_of c s'
  end.

(** An entry that the two [Split] of [GetPage] leave whole: neither its URL
    nor the name of its relation holds a comma or a semicolon. *)
Definition link_entry_ok (e : string * string) : bool :=
  free_of "," e.1 && free_of ";" e.1 && free_of "," e.2 && free_of ";" e.2.

(** What a [Link] header says of the next page: nothing when it is absent,
    else the target of its first ["next"] entry. *)
Inductive LinkHeader : string -> option string -> Prop :=
| LinkHeader_absent : LinkHeader "" None
| LinkHeader_entries (es : list (string * string)) :
    es <> [] ->
    forallb link_entry_ok es = true ->
    LinkHeader (link_header es) (next_target es).

(** The pages that a walk from [url] goes through, by their bodies: each
    request is answered, every page but the last names its successor in a
    ["next"] entry, and the last page names none. *)
Inductive page_chain (net : Net) (auth : string)
  : string -> list string -> Prop :=
| page_chain_last (url : string) (resp : Response) :
    url <> "" ->
    NewRequest_err net url = None ->
    Do net (page_request {| nextLink := url; authHdr := auth |}) = inr resp ->
    LinkHeader (Header_Get (RespHeader resp) "Link") None ->
    page_chain net auth url [RespBody resp]
| page_chain_next (url : string) (resp : Response) (url' : string)
    (bodies : list string) :
    url <> "" ->
    NewRequest_err net url = None ->
    Do net (page_request {| nextLink := url; authHdr := auth |}) = inr resp ->
    LinkHeader (Header_Get (RespHeader resp) "Link") (Some url') ->
    page_chain net auth url' bodies ->
    page_chain net auth url (RespBody resp :: bodies).

(** [step] over the bodies of the pages, first to last. *)
Fixpoint fold_pages {St : Type} (step : St -> string -> outcome St)
    (st : St) (bodies : list string) : outcome St :=
  match bodies with
  | [] => Ok st
  | b :: rest => st' ← step st b; fold_pages step st' rest
  end.

Definition omap {A B} (f : A -> B) (m : outcome A) : outcome B :=
  match m with
  | Ok a => Ok (f a)
  | Panic msg => Panic msg
  | OutOfFuel => OutOfFuel
  end.

(** ** Facts on strings *)

Section StringFacts.

Implicit Types s a b : string.

Lemma append_assoc a b c : (a +:+ b) +:+ c = a +:+ (b +:+ c).
Proof. induction a as [|x a IH]; simpl; [reflexivity|by f_equal]. Qed.

Lemma append_nil_r a : a +:+ "" = a.
Proof. induction a as [|x a IH]; simpl; [reflexivity|by f_equal]. Qed.

Lemma length_append a b :
  String.length (a +:+ b) = (String.length a + String.length b)%nat.
Proof. induction a as [|x a IH]; simpl; [reflexivity|by f_equal]. Qed.

Lemma rev_append_spec s acc : rev_append s acc = rev s +:+ acc.
Proof.
  unfold rev. revert acc.
  induction s as [|x s IH]; intros acc; simpl; [reflexivity|].
  rewrite (IH (String x acc)), (IH (String x "")), append_assoc. reflexivity.
Qed.

Lemma rev_cons x s : rev (String x s) = rev s +:+ String x "".
Proof. unfold rev at 1. simpl. apply rev_append_spec. Qed.

Lemma rev_app a b : rev (a +:+ b) = rev b +:+ rev a.
Proof.
  induction a as [|x a IH]; simpl.
  - by rewrite append_nil_r.
  - by rewrite !rev_cons, IH, append_assoc.
Qed.

Lemma rev_involutive s : rev (rev s) = s.
Proof.
  induction s as [|x s IH]; [reflexivity|].
  by rewrite rev_cons, rev_app, IH.
Qed.

Lemma length_rev s : String.length (rev s) = String.length s.
Proof.
  induction s as [|x s IH]; [reflexivity|].
  rewrite rev_cons, length_append, IH. simpl. lia.
Qed.

Lemma drop_append a b : drop (String.length a) (a +:+ b) = b.
Proof. induction a as [|x a IH]; simpl; [by destruct b|exact IH]. Qed.

Lemma prefix_append a b : String.prefix a (a +:+ b) = true.
Proof.
  induction a as [|x a IH]; simpl; [by destruct b|].
  destruct (ascii_dec x x); [exact IH|congruence].
Qed.

Lemma free_of_append c a b :
  free_of c (a +:+ b) = free_of c a && free_of c b.
Proof.
  induction a as [|x a IH]; simpl; [reflexivity|].
  by rewrite IH, andb_assoc.
Qed.

Lemma append_inj_l a b1 b2 : a +:+ b1 = a +:+ b2 -> b1 = b2.
Proof. induction a as [|x a IH]; simpl; [done|]. intros [=]. auto. Qed.

Lemma append_inj_r a1 a2 b : a1 +:+ b = a2 +:+ b -> a1 = a2.
Proof.
  intros Heq. apply (f_equal rev) in Heq. rewrite !rev_app in Heq.
  apply append_inj_l in Heq. apply (f_equal rev) in Heq.
  by rewrite !rev_involutive in Heq.
Qed.

(** [Split] at a one-byte separator. *)
Lemma split_free c a :
  free_of c a = true -> split_from (String c "") 0 a = [a].
Proof.
  induction a as [|x a IH]; simpl; [reflexivity|].
  intros [Hx Ha]%andb_true_iff.
  destruct (ascii_dec c x) as [->|Hne].
  - by rewrite Ascii.eqb_refl in Hx.
  - by rewrite (IH Ha).
Qed.

Lemma split_cons c a rest :
  free_of c a = true ->
  split_from (String c "") 0 (a +:+ String c rest)
  = a :: split_from (String c "") 0 rest.
Proof.
  induction a as [|x a IH]; simpl.
  - intros _. destruct (ascii_dec c c); [by destruct rest|congruence].
  - intros [Hx Ha]%andb_true_iff.
    destruct (ascii_dec c x) as [->|Hne].
    + by rewrite Ascii.eqb_refl in Hx.
    + by rewrite (IH Ha).
Qed.

(** A byte of ASCII that is no white space. *)
Definition plain (c : ascii) : bool :=
  (N_of_ascii c <? 128)%N && negb (ascii_space c).

Lemma space2_plain_l c d : plain c = true -> space2 c d = false.
Proof.
  unfold plain, space2. intros [Hc _]%andb_true_iff.
  apply N.ltb_lt in Hc.
  destruct (N.eqb_spec (N_of_ascii c) 194); [lia|reflexivity].
Qed.

Lemma space2_plain_r c d : plain d = true -> space2 c d = false.
Proof.
  unfold plain, space2. intros [Hd _]%andb_true_iff.
  apply N.ltb_lt in Hd.
  destruct (N.eqb_spec (N_of_ascii d) 133); [lia|].
  destruct (N.eqb_spec (N_of_ascii d) 160); [lia|].
  by rewrite andb_false_r.
Qed.

Lemma space3_plain_l c d e : plain c = true -> space3 c d e = false.
Proof.
  unfold plain, space3. intros [Hc _]%andb_true_iff.
  apply N.ltb_lt in Hc.
  destruct (N.eqb_spec (N_of_ascii c) 225); [lia|].
  destruct (N.eqb_spec (N_of_ascii c) 226); [lia|].
  destruct (N.eqb_spec (N_of_ascii c) 227); [lia|].
  reflexivity.
Qed.

Lemma space3_plain_r c d e : plain e = true -> space3 c d e = false.
Proof.
  unfold plain, space3. intros [He _]%andb_true_iff.
  apply N.ltb_lt in He.
  destruct (N.leb_spec 128 (N_of_ascii e)); [lia|].
  destruct (N.eqb_spec (N_of_ascii e) 128); [lia|].
  destruct (N.eqb_spec (N_of_ascii e) 159); [lia|].
  destruct (N.eqb_spec (N_of_ascii e) 168); [lia|].
  destruct (N.eqb_spec (N_of_ascii e) 169); [lia|].
  destruct (N.eqb_spec (N_of_ascii e) 175); [lia|].
  simpl. by rewrite !andb_false_r.
Qed.

Lemma space_width_plain c s : plain c = true -> space_width (String c s) = 0%nat.
Proof.
  intros Hc. pose proof Hc as [_ Hs%negb_true_iff]%andb_true_iff.
  simpl. rewrite Hs.
  destruct s as [|d [|e s]]; [reflexivity| |];
    by rewrite ?space2_plain_l, ?space3_plain_l.
Qed.

Lemma space_width_rev_plain c r :
  plain c = true -> space_width_rev (String c r) = 0%nat.
Proof.
  intros Hc. pose proof Hc as [_ Hs%negb_true_iff]%andb_true_iff.
  simpl. rewrite Hs.
  destruct r as [|d [|e r]]; [reflexivity| |];
    by rewrite ?space2_plain_r, ?space3_plain_r.
Qed.

Lemma trim_with_stop width fuel s : width s = 0%nat -> trim_with width fuel s = s.
Proof. intros Hw. destruct fuel; simpl; [reflexivity|by rewrite Hw]. Qed.

(** A string that begins and ends with plain bytes is left as it is by
    [TrimSpace], and so it is when a blank comes before it. *)
Lemma TrimSpace_plain c1 c2 m :
  plain c1 = true -> plain c2 = true ->
  TrimSpace (String c1 (m +:+ String c2 "")) = String c1 (m +:+ String c2 "").
Proof.
  intros H1 H2. unfold TrimSpace, TrimLeftSpace.
  rewrite trim_with_stop by by apply space_width_plain.
  unfold TrimRightSpace.
  change (String c1 (m +:+ String c2 "")) with (String c1 m +:+ String c2 "").
  rewrite rev_app. change (rev (String c2 "")) with (String c2 "").
  simpl (String c2 "" +:+ _).
  rewrite trim_with_stop by by apply space_width_rev_plain.
  change (String c2 (rev (String c1 m))) with (String c2 "" +:+ rev (String c1 m)).
  by rewrite rev_app, rev_involutive.
Qed.

Lemma TrimSpace_blank_plain c1 c2 m :
  plain c1 = true -> plain c2 = true ->
  TrimSpace (" " +:+ String c1 (m +:+ String c2 ""))
  = String c1 (m +:+ String c2 "").
Proof.
  intros H1 H2.
  rewrite <- (TrimSpace_plain c1 c2 m H1 H2) at 2.
  reflexivity.
Qed.

End StringFacts.

(** ** The parsing of the [Link] header by [GetPage] *)

Section LinkFacts.

Lemma prefix_nil s : String.prefix "" s = true.
Proof. by destruct s. Qed.

Lemma link_value_cut e :
  link_value e
  = ("<" +:+ e.1 +:+ ">") +:+ String ";" (" rel=" +:+ dquote +:+ e.2 +:+ dquote).
Proof. unfold link_value. simpl. by rewrite append_assoc. Qed.

Lemma free_of_link_value c e :
  free_of c "<>; rel=" = true -> free_of c dquote = true ->
  free_of c e.1 = true -> free_of c e.2 = true ->
  free_of c (link_value e) = true.
Proof.
  intros Hlit Hq H1 H2. unfold link_value.
  rewrite !free_of_append, H1, H2, Hq.
  simpl in Hlit |- *.
  repeat (apply andb_true_iff in Hlit as [? Hlit]).
  by repeat (apply andb_true_iff; split).
Qed.

Lemma link_entry_ok_inv e :
  link_entry_ok e = true ->
  free_of "," e.1 = true /\ free_of ";" e.1 = true
  /\ free_of "," e.2 = true /\ free_of ";" e.2 = true.
Proof.
  unfold link_entry_ok. rewrite !andb_true_iff. tauto.
Qed.

Definition blank_or_empty (ws : string) : Prop := ws = "" \/ ws = " ".

(** [strings.Split(lr, ";")] on an entry. *)
Lemma Split_link_value ws e :
  blank_or_empty ws -> link_entry_ok e = true ->
  Split (ws +:+ link_value e) ";"
  = [ws +:+ "<" +:+ e.1 +:+ ">"; " rel=" +:+ dquote +:+ e.2 +:+ dquote].
Proof.
  intros Hws (_ & H1 & _ & H2)%link_entry_ok_inv.
  rewrite link_value_cut, <- append_assoc.
  unfold Split. rewrite split_cons.
  - rewrite split_free; [reflexivity|].
    rewrite !free_of_append, H2. reflexivity.
  - rewrite !free_of_append, H1.
    destruct Hws as [-> | ->]; reflexivity.
Qed.

Lemma TrimSpace_target ws u :
  blank_or_empty ws -> TrimSpace (ws +:+ "<" +:+ u +:+ ">") = "<" +:+ u +:+ ">".
Proof.
  intros [-> | ->].
  - exact (TrimSpace_plain "<" ">" u eq_refl eq_refl).
  - exact (TrimSpace_blank_plain "<" ">" u eq_refl eq_refl).
Qed.

Lemma TrimSpace_rel r :
  TrimSpace (" rel=" +:+ dquote +:+ r +:+ dquote) = "rel=" +:+ dquote +:+ r +:+ dquote.
Proof.
  pose proof (TrimSpace_blank_plain "r" "034" ("el=" +:+ dquote +:+ r)
                eq_refl eq_refl) as Ht.
  simpl in Ht. exact Ht.
Qed.

Lemma rel_next_eqb r :
  String.eqb ("rel=" +:+ dquote +:+ r +:+ dquote) rel_next = String.eqb r "next".
Proof.
  destruct (String.eqb_spec r "next") as [-> | Hne].
  - apply String.eqb_refl.
  - apply String.eqb_neq. intros Heq. apply Hne.
    unfold rel_next in Heq.
    apply append_inj_l, append_inj_l in Heq.
    by apply append_inj_r in Heq.
Qed.

Lemma TrimPrefix_target u : TrimPrefix ("<" +:+ u +:+ ">") "<" = u +:+ ">".
Proof.
  unfold TrimPrefix, HasPrefix. simpl. by rewrite prefix_nil.
Qed.

Lemma TrimSuffix_target u : TrimSuffix (u +:+ ">") ">" = u.
Proof.
  unfold TrimSuffix, HasSuffix. rewrite rev_app.
  change (rev ">") with ">". simpl.
  by rewrite prefix_nil, rev_involutive.
Qed.

(** One turn of the loop over [linkRels]. *)
Lemma scan_links_entry g body ws e rest :
  blank_or_empty ws -> link_entry_ok e = true ->
  scan_links g body ((ws +:+ link_value e) :: rest)
  = if String.eqb e.2 "next"
    then Ok (body, true, {| nextLink := e.1; authHdr := authHdr g |})
    else scan_links g body rest.
Proof.
  intros Hws He. cbn [scan_links].
  rewrite (Split_link_value ws e Hws He).
  change (index [ws +:+ "<" +:+ e.1 +:+ ">"; " rel=" +:+ dquote +:+ e.2 +:+ dquote] 1)
    with (Ok (" rel=" +:+ dquote +:+ e.2 +:+ dquote)).
  change (index [ws +:+ "<" +:+ e.1 +:+ ">"; " rel=" +:+ dquote +:+ e.2 +:+ dquote] 0)
    with (Ok (ws +:+ "<" +:+ e.1 +:+ ">")).
  cbn [mbind outcome_bind obind].
  rewrite TrimSpace_rel, rel_next_eqb.
  destruct (String.eqb e.2 "next"); [|reflexivity].
  cbn [mbind outcome_bind obind].
  by rewrite (TrimSpace_target ws _ Hws), TrimPrefix_target, TrimSuffix_target.
Qed.

(** [strings.Split(linksRelStr, ",")] on a header. *)
Definition link_pieces (ws : string) (es : list (string * string)) : list string :=
  match es with
  | [] => [ws]
  | e :: es' =>
      (ws +:+ link_value e) :: map (fun e' => " " +:+ link_value e') es'
  end.

Lemma free_of_comma_link_value e :
  link_entry_ok e = true -> free_of "," (link_value e) = true.
Proof.
  intros (H1 & _ & H2 & _)%link_entry_ok_inv.
  by apply free_of_link_value.
Qed.

Lemma Split_link_header ws e es :
  blank_or_empty ws ->
  forallb link_entry_ok (e :: es) = true ->
  Split (ws +:+ link_header (e :: es)) "," = link_pieces ws (e :: es).
Proof.
  unfold Split. revert ws e.
  induction es as [|e' es IH]; intros ws e Hws Hok.
  - simpl in Hok. rewrite andb_true_r in Hok.
    simpl link_header. rewrite split_free; [reflexivity|].
    rewrite free_of_append, (free_of_comma_link_value e Hok).
    destruct Hws as [-> | ->]; reflexivity.
  - apply andb_true_iff in Hok as [He Hok].
    change (link_header (e :: e' :: es))
      with (link_value e +:+ ", " +:+ link_header (e' :: es)).
    change (", " +:+ link_header (e' :: es))
      with (String "," (" " +:+ link_header (e' :: es))).
    rewrite <- append_assoc, split_cons.
    + rewrite (IH " " e'); [reflexivity|by right|exact Hok].
    + rewrite free_of_append, (free_of_comma_link_value e He).
      destruct Hws as [-> | ->]; reflexivity.
Qed.

Lemma scan_links_blank g body es :
  forallb link_entry_ok es = true ->
  scan_links g body (map (fun e' => " " +:+ link_value e') es)
  = match next_target es with
    | Some u => Ok (body, true, {| nextLink := u; authHdr := authHdr g |})
    | None => Ok (body, false, g)
    end.
Proof.
  induction es as [|[u r] es IH]; intros Hok; [reflexivity|].
  apply andb_true_iff in Hok as [He Hok].
  rewrite map_cons, scan_links_entry; [|by right|exact He].
  simpl. destruct (String.eqb r "next"); [reflexivity|by apply IH].
Qed.

Lemma scan_links_header g body es :
  es <> [] -> forallb link_entry_ok es = true ->
  scan_links g body (Split (link_header es) ",")
  = match next_target es with
    | Some u => Ok (body, true, {| nextLink := u; authHdr := authHdr g |})
    | None => Ok (body, false, g)
    end.
Proof.
  destruct es as [|[u r] es]; [done|]. intros _ Hok.
  change (link_header ((u, r) :: es)) with ("" +:+ link_header ((u, r) :: es)).
  rewrite (Split_link_header "" (u, r) es (or_introl eq_refl) Hok).
  pose proof Hok as [He Hes]%andb_true_iff.
  unfold link_pieces.
  rewrite scan_links_entry; [|by left|exact He].
  simpl. destruct (String.eqb r "next"); [reflexivity|].
  by apply scan_links_blank.
Qed.

Lemma link_header_nonempty es : es <> [] -> String.eqb (link_header es) "" = false.
Proof. destruct es as [|[u r] [|e es]]; [done| |]; intros _; reflexivity. Qed.

(** The state of the fetcher after a page: the link is replaced when a next
    page is named, and kept otherwise. *)
Definition advance (g : PagedGet) (next : option string) : PagedGet :=
  match next with
  | Some u => {| nextLink := u; authHdr := authHdr g |}
  | None => g
  end.

Lemma GetPage_LinkHeader net g resp next :
  nextLink g <> "" ->
  NewRequest_err net (nextLink g) = None ->
  Do net (page_request g) = inr resp ->
  LinkHeader (Header_Get (RespHeader resp) "Link") next ->
  GetPage net g = Ok (RespBody resp, bool_decide (is_Some next), advance g next).
Proof.
  intros Hne%String.eqb_neq Hreq Hdo Hlink. unfold GetPage.
  rewrite Hne, Hreq, Hdo.
  inversion Hlink as [Hhdr Hnext | es Hes Hok Hhdr Hnext].
  - reflexivity.
  - rewrite (link_header_nonempty es Hes), (scan_links_header _ _ es Hes Hok).
    by destruct (next_target es).
Qed.

End LinkFacts.

(** ** An upstream to run the server against *)

Module Fixture.

Definition api : string := "https://api.github.com".
Definition page1 : string := api +:+ kGitHubNetflixRepos.
Definition page2 : string := api +:+ "/organizations/913567/repos?page=2".
Definition page3 : string := api +:+ "/organizations/913567/repos?page=3".

Definition links1 : list (string * string) := [(page2, "next"); (page3, "last")].
Definition links2 : list (string * string) :=
  [(page1, "prev"); (page3, "next"); (page3, "last"); (page1, "first")].
Definition links3 : list (string * string) := [(page2, "prev"); (page1, "first")].

Definition response (links : list (string * string)) (body : string) : Response :=
  {| StatusCode := 200;
     RespHeader := match links with
                   | [] => []
                   | _ => [("Link", link_header links)]
                   end;
     RespBody := body |}.

Definition reply (links : list (string * string)) (body : string)
  : string + Response := inr (response links body).

(** Three pages of repositories, and one page for each other route. *)
Definition net : Net := {|
  NewRequest_err := fun _ => None;
  Do := fun req =>
    let u := URL req in
    if String.eqb u page1 then reply links1 "[A,B]"
    else if String.eqb u page2 then reply links2 "[C]"
    else if String.eqb u page3 then reply links3 "[D]"
    else if String.eqb u (api +:+ kGitHubRoot) then reply [] "{root}"
    else if String.eqb u (api +:+ kGitHubNetflix) then reply [] "{org}"
    else if String.eqb u (api +:+ kGitHubNetflixMembers) then reply [] "[members]"
    else inl "dial tcp: connection refused"
|}.

(** The same upstream when the root route cannot be reached. *)
Definition net_root_down : Net := {|
  NewRequest_err := fun _ => None;
  Do := fun req =>
    if String.eqb (URL req) (api +:+ kGitHubRoot)
    then inl "dial tcp: i/o timeout"
    else Do net req
|}.

(** The same upstream when the second page of repositories is no JSON. *)
Definition net_page2_garbled : Net := {|
  NewRequest_err := fun _ => None;
  Do := fun req =>
    if String.eqb (URL req) page2 then reply links2 "<html>"
    else Do net req
|}.

Definition repo (n : string) (f o s : Z) (u : Time) : option Repository :=
  Some {| Name := Some n; ForksCount := Some f; UpdatedAt := Some u;
          OpenIssuesCount := Some o; StargazersCount := Some s |}.

Definition jan15 : Time := 1516017600 * 1000000000.
Definition jul15 : Time := 1531656000 * 1000000000.

Definition repoA := repo "A" 5 3 10 jan15.
Definition repoB := repo "B" 9 0 2 jul15.
Definition repoC := repo "C" 7 8 2 (jan15 + 1).
Definition repoD := repo "D" 1 4 6 (jul15 - 1).

Definition names (rs : list (option Repository)) : list string :=
  map (fun r => match r with
                | Some {| Name := Some n |} => n
                | _ => "null"
                end) rs.

(** A codec for the bodies above; every other body is an error that leaves
    [pageRepos] as it was. *)
Definition json : Json := {|
  Unmarshal := fun body =>
    if String.eqb body "[A,B]" then ([repoA; repoB], None)
    else if String.eqb body "[C]" then ([repoC], None)
    else if String.eqb body "[D]" then ([repoD], None)
    else ([], Some "invalid character '<' looking for beginning of value");
  Marshal := fun rs => "[" +:+ String.concat "," (names rs) +:+ "]"
|}.

Definition s0 : Server := NewServer 8080 "".

(** An upstream that answers every request with its method as the body. *)
Definition net_echo_method : Net := {|
  NewRequest_err := fun _ => None;
  Do := fun req =>
    inr {| StatusCode := 200; RespHeader := []; RespBody := Method req |}
|}.

(** [quoted s] is [s] with a double quote for each apostrophe. *)
Fixpoint quoted (s : string) : string :=
  match s with
  | EmptyString => EmptyString
  | String c s' =>
      String (if Ascii.eqb c "'" then "034"%char else c) (quoted s')
  end.

Definition incoming (method path : string) : Incoming :=
  {| InMethod := method; InPath := path; InURL := path;
     InHeader := [("User-Agent", "curl/8.5.0")]; InBody := "" |}.

End Fixture.

(** ** The walk over the pages *)

Section PageWalk.

Context {St : Type} (net : Net) (step : St -> string -> outcome St).

Lemma pagesLoop_chain auth url bodies :
  page_chain net auth url bodies ->
  forall (fuel : nat) (st : St),
    (length bodies <= fuel)%nat ->
    omap fst (pagesLoop net step fuel {| nextLink := url; authHdr := auth |} st)
    = fold_pages step st bodies.
Proof.
  induction 1 as [url resp Hurl Hreq Hdo Hlink
                 |url resp url' bodies Hurl Hreq Hdo Hlink Hchain IH];
    intros fuel st Hfuel; (destruct fuel as [|fuel]; [simpl in Hfuel; lia|]);
    cbn [pagesLoop];
    rewrite (GetPage_LinkHeader net {| nextLink := url; authHdr := auth |}
               resp _ Hurl Hreq Hdo Hlink);
    cbn [mbind outcome_bind obind fold_pages advance];
    destruct (step st (RespBody resp)) as [st'| |]; try reflexivity.
  cbn [mbind outcome_bind obind].
  rewrite bool_decide_eq_true_2 by eauto.
  cbn [authHdr]. apply IH. simpl in Hfuel. lia.
Qed.

End PageWalk.

Lemma PagedGet_eta g : {| nextLink := nextLink g; authHdr := authHdr g |} = g.
Proof. by destruct g. Qed.

Lemma fold_pages_keep_body bodies acc :
  fold_pages keep_body acc bodies = Ok (acc ++ bodies).
Proof.
  revert acc. induction bodies as [|b bodies IH]; intros acc; simpl.
  - by rewrite app_nil_r.
  - rewrite IH. by rewrite <- app_assoc.
Qed.

(** ** The paged fetcher *)

Lemma LinkHeader_functional net g resp next1 next2 :
  nextLink g <> "" ->
  NewRequest_err net (nextLink g) = None ->
  Do net (page_request g) = inr resp ->
  LinkHeader (Header_Get (RespHeader resp) "Link") next1 ->
  LinkHeader (Header_Get (RespHeader resp) "Link") next2 ->
  next1 = next2.
Proof.
  intros Hne Hreq Hdo H1 H2.
  pose proof (GetPage_LinkHeader net g resp next1 Hne Hreq Hdo H1) as E1.
  pose proof (GetPage_LinkHeader net g resp next2 Hne Hreq Hdo H2) as E2.
  rewrite E1 in E2. injection E2 as Eb Eg.
  destruct next1 as [u1|], next2 as [u2|]; try done.
  simpl in Eg. by injection Eg as ->.
Qed.

(** C3. When every page of an upstream endpoint but the last names its
    successor in a "next" entry of its Link header, the page loop, given fuel
    for as many turns as there are pages, ends and has taken exactly the
    bodies of the pages, one for each page and in their order; and when the
    answer to the first request has no Link header or no "next" entry, that
    page is the only one. *)
Theorem paged_fetch_one_body_per_page (net : Net) (g : PagedGet)
    (bodies : list string) :
  page_chain net (authHdr g) (nextLink g) bodies ->
  (forall fuel : nat,
      (length bodies <= fuel)%nat ->
      omap fst (pagesLoop net keep_body fuel g []) = Ok bodies)
  /\ (forall resp : Response,
         Do net (page_request g) = inr resp ->
         LinkHeader (Header_Get (RespHeader resp) "Link") None ->
         bodies = [RespBody resp]).
Proof.
  intros Hchain. split.
  - intros fuel Hfuel.
    pose proof (pagesLoop_chain net keep_body _ _ _ Hchain fuel [] Hfuel) as E.
    rewrite PagedGet_eta in E. rewrite E.
    apply fold_pages_keep_body.
  - intros resp Hdo Hlink.
    inversion Hchain as [url r Hurl Hreq Hdo' Hlink' Eu Eb
                        |url r url' bs Hurl Hreq Hdo' Hlink' Hrest Eu Eb];
      rewrite PagedGet_eta in Hdo'; rewrite Hdo in Hdo';
      injection Hdo' as <-; [reflexivity|].
    by pose proof (LinkHeader_functional net g resp _ _ Hurl Hreq Hdo Hlink Hlink').
Qed.

Lemma Fixture_repos_chain :
  page_chain Fixture.net "" Fixture.page1 ["[A,B]"; "[C]"; "[D]"].
Proof.
  apply (page_chain_next Fixture.net "" Fixture.page1
           (Fixture.response Fixture.links1 "[A,B]") Fixture.page2);
    [discriminate|reflexivity|reflexivity| |].
  { exact (LinkHeader_entries Fixture.links1 ltac:(discriminate) eq_refl). }
  apply (page_chain_next Fixture.net "" Fixture.page2
           (Fixture.response Fixture.links2 "[C]") Fixture.page3);
    [discriminate|reflexivity|reflexivity| |].
  { exact (LinkHeader_entries Fixture.links2 ltac:(discriminate) eq_refl). }
  apply (page_chain_last Fixture.net "" Fixture.page3
           (Fixture.response Fixture.links3 "[D]"));
    [discriminate|reflexivity|reflexivity|].
  exact (LinkHeader_entries Fixture.links3 ltac:(discriminate) eq_refl).
Defined.

(** Three pages, with "next" on the first two: three bodies. *)
Lemma paged_fetch_three_pages :
  page_chain Fixture.net "" Fixture.page1 ["[A,B]"; "[C]"; "[D]"]
  /\ omap fst (pagesLoop Fixture.net keep_body 3
                 (NewPagedGet kGitHubNetflixRepos "") [])
     = Ok ["[A,B]"; "[C]"; "[D]"].
Proof.
  split; [exact Fixture_repos_chain|].
  apply (proj1 (paged_fetch_one_body_per_page Fixture.net
                  (NewPagedGet kGitHubNetflixRepos "") ["[A,B]"; "[C]"; "[D]"]
                  Fixture_repos_chain) 3%nat).
  simpl. lia.
Defined.

Example paged_fetch_three_pages_run :
  pagesLoop Fixture.net keep_body 5 (NewPagedGet kGitHubNetflixRepos "") []
  = Ok (["[A,B]"; "[C]"; "[D]"],
        {| nextLink := Fixture.page3; authHdr := "" |}).
Proof. vm_compute. reflexivity. Qed.

(** An entry without a parameter has no second part for [l[1]]: the scan
    panics on it. The chains above have no such entry. *)
Example GetPage_entry_without_parameter :
  GetPage {| NewRequest_err := fun _ => None;
             Do := fun _ => inr {| StatusCode := 200;
                                   RespHeader := [("Link", "<https://api.github.com/x>")];
                                   RespBody := "[]" |} |}
    (NewPagedGet kGitHubNetflixRepos "")
  = Panic "index out of range".
Proof. vm_compute. reflexivity. Qed.

(** The guard at the head of [GetPage]. *)
Lemma GetPage_empty_link net g :
  nextLink g = "" -> GetPage net g = Panic "GetPage beyond page chain.".
Proof. intros E. unfold GetPage. by rewrite E. Qed.

Lemma scan_links_end g body linkRels b g' :
  scan_links g body linkRels = Ok (b, false, g') -> b = body /\ g' = g.
Proof.
  induction linkRels as [|lr rest IH]; cbn [scan_links].
  - by intros [= <- <-].
  - destruct (index (Split lr ";") 1) as [l1| |]; cbn [mbind outcome_bind obind];
      [|done..].
    destruct (String.eqb (TrimSpace l1) rel_next); [|exact IH].
    destruct (index (Split lr ";") 0) as [l0| |]; cbn [mbind outcome_bind obind];
      done.
Qed.

(** No path of [GetPage] clears the stored link: when a call reports that
    no page is left, the link is still the one of the page just read, and
    the next call reads that page again. *)
Lemma GetPage_end_keeps_link net g body g' :
  GetPage net g = Ok (body, false, g') ->
  g' = g /\ nextLink g' <> "" /\ GetPage net g' = Ok (body, false, g').
Proof.
  intros Hget. assert (g' = g /\ nextLink g <> "") as [-> Hne].
  { unfold GetPage in Hget.
    destruct (String.eqb_spec (nextLink g) "") as [|Hne]; [done|].
    split; [|exact Hne].
    destruct (NewRequest_err net (nextLink g)); [done|].
    destruct (Do net (page_request g)) as [err|resp]; [done|].
    destruct (String.eqb (Header_Get (RespHeader resp) "Link") "").
    - by injection Hget.
    - by apply scan_links_end in Hget as [_ ->]. }
  done.
Qed.

(** C9, on the code: a fetcher for the root route, which has one page. The
    first call reports that no page is left; the stored link is not empty
    then, and the second call does not panic: it fetches the same page
    again. *)
Theorem GetPage_twice_on_single_page :
  let g := NewPagedGet kGitHubRoot "" in
  GetPage Fixture.net g = Ok ("{root}", false, g)
  /\ nextLink g = "https://api.github.com/"
  /\ ('(_, _, g1) ← GetPage Fixture.net g; GetPage Fixture.net g1)
     = Ok ("{root}", false, g).
Proof. vm_compute. done. Qed.

(** ** The refresh of the repositories *)

(** The view element of an entity, when the entity and the five fields that
    the server dereferences are there. *)
Definition to_elm (r : option Repository) : option viewElm :=
  r' ← r;
  n ← Name r'; f ← ForksCount r'; u ← UpdatedAt r';
  o ← OpenIssuesCount r'; s ← StargazersCount r';
  Some {| name := n; forks := f; updated := u; openIssues := o; stars := s |}.

Definition nil_dereference : string :=
  "invalid memory address or nil pointer dereference".

Lemma process_repo_spec st r :
  process_repo st r
  = match to_elm r with
    | Some e => Ok {| elms := elms st ++ [length (arena st)];
                      repos := repos st ++ [r];
                      arena := arena st ++ [e] |}
    | None => Panic nil_dereference
    end.
Proof.
  unfold process_repo, to_elm.
  destruct r as [[[n|] [f|] [u|] [o|] [s|]]|]; reflexivity.
Qed.

(** The variables of the page loop, in terms of the entities [rs] read so
    far and of the arena [h0] at the start: one new record for each entity,
    and [elms] holds their addresses in the order of the entities. *)
Definition loop_state (h0 : list viewElm) (rs : list (option Repository))
    (new : list viewElm) : loopVars :=
  {| elms := seq (length h0) (length new);
     repos := rs;
     arena := h0 ++ new |}.

Lemma loop_state_nil h0 :
  {| elms := []; repos := []; arena := h0 |} = loop_state h0 [] [].
Proof. unfold loop_state. simpl. by rewrite app_nil_r. Qed.

Lemma process_repo_loop_state h0 rs new r :
  process_repo (loop_state h0 rs new) r
  = match to_elm r with
    | Some e => Ok (loop_state h0 (rs ++ [r]) (new ++ [e]))
    | None => Panic nil_dereference
    end.
Proof.
  rewrite process_repo_spec. destruct (to_elm r) as [e|]; [|reflexivity].
  unfold loop_state. simpl. f_equal. f_equal.
  - rewrite !length_app. simpl. rewrite seq_app. simpl. reflexivity.
  - by rewrite app_assoc.
Qed.

Lemma process_page_loop_state h0 rs new page es :
  mapM to_elm page = Some es ->
  process_page (loop_state h0 rs new) page
  = Ok (loop_state h0 (rs ++ page) (new ++ es)).
Proof.
  revert rs new es. induction page as [|r page IH]; intros rs new es Hes.
  - injection Hes as <-. simpl. by rewrite !app_nil_r.
  - cbn [mapM] in Hes.
    destruct (to_elm r) as [e|] eqn:He; [|done].
    cbn [mbind option_bind] in Hes.
    destruct (mapM to_elm page) as [es'|] eqn:Hes'; [|done].
    injection Hes as <-.
    cbn [process_page]. rewrite process_repo_loop_state, He.
    cbn [mbind outcome_bind obind].
    rewrite (IH _ _ es' eq_refl).
    by rewrite <- !app_assoc.
Qed.

Lemma process_page_Ok_inv h0 rs new page st' :
  process_page (loop_state h0 rs new) page = Ok st' ->
  exists es, mapM to_elm page = Some es
             /\ st' = loop_state h0 (rs ++ page) (new ++ es).
Proof.
  revert rs new. induction page as [|r page IH]; intros rs new Hst.
  - injection Hst as <-. exists []. by rewrite !app_nil_r.
  - cbn [process_page] in Hst. rewrite process_repo_loop_state in Hst.
    destruct (to_elm r) as [e|] eqn:He; [|done].
    cbn [mbind outcome_bind obind] in Hst.
    apply IH in Hst as (es & Hes & ->).
    exists (e :: es). cbn [mapM]. rewrite He, Hes.
    by rewrite <- !app_assoc.
Qed.

(** What the loop has built when it ends without a panic, whatever the
    pages were. *)
Definition built_from (h0 : list viewElm) (st : loopVars) : Prop :=
  exists rs new, mapM to_elm rs = Some new /\ st = loop_state h0 rs new.

Lemma mapM_to_elm_app rs1 rs2 es1 es2 :
  mapM to_elm rs1 = Some es1 -> mapM to_elm rs2 = Some es2 ->
  mapM to_elm (rs1 ++ rs2) = Some (es1 ++ es2).
Proof.
  rewrite !mapM_Some. apply Forall2_app.
Qed.

Lemma repos_step_built json h0 st body st' :
  built_from h0 st -> repos_step json st body = Ok st' -> built_from h0 st'.
Proof.
  intros (rs & new & Hnew & ->) Hstep. unfold repos_step in Hstep.
  apply process_page_Ok_inv in Hstep as (es & Hes & ->).
  exists (rs ++ (Unmarshal json body).1), (new ++ es).
  split; [by apply mapM_to_elm_app|reflexivity].
Qed.

Lemma pagesLoop_invariant {St} (P : St -> Prop) net
    (step : St -> string -> outcome St) :
  (forall st body st', P st -> step st body = Ok st' -> P st') ->
  forall fuel g st st' g',
    P st -> pagesLoop net step fuel g st = Ok (st', g') -> P st'.
Proof.
  intros Hstep. induction fuel as [|fuel IH]; intros g st st' g' Hst Hloop;
    [done|].
  cbn [pagesLoop] in Hloop.
  destruct (GetPage net g) as [[[body next] g1]| |];
    cbn [mbind outcome_bind obind] in Hloop; [|done..].
  destruct (step st body) as [st1| |] eqn:Hst1;
    cbn [mbind outcome_bind obind] in Hloop; [|done..].
  destruct next.
  - eapply IH; [|exact Hloop]. eauto.
  - injection Hloop as <- <-. eauto.
Qed.

Section RefreshFacts.

Context `{SliceSorter}.
Variable json : Json.

Lemma refreshNetflixRepos_Ok_inv net fuel s s' :
  refreshNetflixRepos json net fuel s = Ok s' ->
  exists st, built_from (heap s) st /\ s' = publishRepos json s st.
Proof.
  unfold refreshNetflixRepos. intros Hs'.
  destruct (pagesLoop net (repos_step json) fuel
              (NewPagedGet kGitHubNetflixRepos (apiToken s))
              {| elms := []; repos := []; arena := heap s |})
    as [[st g]| |] eqn:Hloop; cbn [mbind outcome_bind obind] in Hs'; [|done..].
  injection Hs' as <-. exists st. split; [|reflexivity].
  eapply (pagesLoop_invariant (built_from (heap s))); [|
    |exact Hloop].
  - intros st0 body st1. apply repos_step_built.
  - exists [], []. split; [reflexivity|apply loop_state_nil].
Qed.

(** Over a chain of pages the refresh is fixed by the bodies. *)
Lemma refreshNetflixRepos_chain net fuel s bodies :
  page_chain net (authHdr (NewPagedGet kGitHubNetflixRepos (apiToken s)))
    (api_url kGitHubNetflixRepos) bodies ->
  (length bodies <= fuel)%nat ->
  refreshNetflixRepos json net fuel s
  = omap (publishRepos json s)
      (fold_pages (repos_step json)
         {| elms := []; repos := []; arena := heap s |} bodies).
Proof.
  intros Hchain Hfuel. unfold refreshNetflixRepos.
  pose proof (pagesLoop_chain net (repos_step json) _ _ _ Hchain fuel
                {| elms := []; repos := []; arena := heap s |} Hfuel) as E.
  change {| nextLink := api_url kGitHubNetflixRepos;
            authHdr := authHdr (NewPagedGet kGitHubNetflixRepos (apiToken s)) |}
    with (NewPagedGet kGitHubNetflixRepos (apiToken s)) in E.
  rewrite <- E.
  by destruct (pagesLoop net (repos_step json) fuel _ _) as [[st g]| |].
Qed.

End RefreshFacts.

(** ** The states of the server *)

(** A record is in a view of [s]. *)
Definition in_views (s : Server) (p : ptr) : Prop :=
  p ∈ topForks s \/ p ∈ lastUpdated s \/ p ∈ topOpenIssues s \/ p ∈ topStars s.

(** The four views hold the same records, each once: they are arrangements
    of one list [recs] of distinct addresses, all of allocated records. *)
Definition same_records (s : Server) : Prop :=
  exists recs : list ptr,
    NoDup recs
    /\ Permutation (topForks s) recs
    /\ Permutation (lastUpdated s) recs
    /\ Permutation (topOpenIssues s) recs
    /\ Permutation (topStars s) recs
    /\ (forall p, p ∈ recs -> (p < length (heap s))%nat).

Section States.

Context `{SliceSorter}.
Variable json : Json.

(** The steps between the states that readers can see: each is a critical
    section, of the refresh of a route, whatever the upstream says, or of
    the marking as ready. They may come in any order. *)
Inductive step : Server -> Server -> Prop :=
| step_route (s s' : Server) (net : Net) (fuel : nat) (r : Route) :
    refreshRoute json net fuel r s = Ok s' -> step s s'
| step_ready (s : Server) : step s (markReady s).

Definition reachable (s : Server) : Prop :=
  exists (port : Z) (apiToken : string), rtc step (NewServer port apiToken) s.

Lemma refreshSingle_Ok_inv path net s s' :
  refreshSingle path net s = Ok s' ->
  exists body,
    s' = {| port := port s; apiToken := apiToken s;
            caches := <[path := body]> (caches s);
            topForks := topForks s; lastUpdated := lastUpdated s;
            topOpenIssues := topOpenIssues s; topStars := topStars s;
            ready := ready s; heap := heap s |}.
Proof.
  unfold refreshSingle. intros Hs'.
  destruct (GetPage net (NewPagedGet path (apiToken s))) as [[[body next] g]| |];
    cbn [mbind outcome_bind obind] in Hs'; [|done..].
  injection Hs' as <-. by exists body.
Qed.

Lemma publishRepos_same_records s st :
  built_from (heap s) st -> same_records (publishRepos json s st).
Proof.
  intros (rs & new & Hnew & ->).
  exists (seq (length (heap s)) (length new)).
  cbn [publishRepos loop_state topForks lastUpdated topOpenIssues topStars
       heap elms arena].
  split; [apply NoDup_seq|].
  repeat (split; [apply sort_Slice_perm|]).
  intros p Hp%list_elem_of_In%in_seq. rewrite length_app. lia.
Qed.

Lemma publishRepos_fresh s st p :
  built_from (heap s) st ->
  in_views (publishRepos json s st) p ->
  (length (heap s) <= p < length (heap (publishRepos json s st)))%nat.
Proof.
  intros (rs & new & Hnew & ->) Hp.
  cbn [publishRepos loop_state heap arena]. rewrite length_app.
  assert (p ∈ seq (length (heap s)) (length new)) as Hin.
  { destruct Hp as [Hp|[Hp|[Hp|Hp]]];
      cbn [publishRepos loop_state topForks lastUpdated topOpenIssues topStars
           elms arena] in Hp;
      by rewrite sort_Slice_perm in Hp. }
  apply list_elem_of_In, in_seq in Hin. lia.
Qed.

Lemma same_records_in_views s p :
  same_records s -> in_views s p -> (p < length (heap s))%nat.
Proof.
  intros (recs & _ & Hf & Hu & Ho & Hs & Hlt) Hp. apply Hlt.
  destruct Hp as [Hp|[Hp|[Hp|Hp]]];
    [by rewrite <- Hf|by rewrite <- Hu|by rewrite <- Ho|by rewrite <- Hs].
Qed.

Lemma step_same_records s s' : step s s' -> same_records s -> same_records s'.
Proof.
  intros [s0 s1 net fuel r Hr|s0] IH.
  - destruct r; cbn [refreshRoute] in Hr;
      try (apply refreshSingle_Ok_inv in Hr as [body ->]; exact IH).
    apply refreshNetflixRepos_Ok_inv in Hr as (st & Hst & ->).
    by apply publishRepos_same_records.
  - unfold markReady. destruct (ready s0); exact IH.
Qed.

Lemma reachable_same_records s : reachable s -> same_records s.
Proof.
  intros (port & tok & Hrtc). revert s Hrtc.
  apply (rtc_ind_r same_records (NewServer port tok)).
  - exists []. repeat split; try reflexivity; [constructor|].
    intros p Hp. by apply elem_of_nil in Hp.
  - intros s s' _ Hstep IH. by eapply step_same_records.
Qed.

Lemma refreshRoute_ready net fuel r s s' :
  refreshRoute json net fuel r s = Ok s' -> ready s' = ready s.
Proof.
  intros Hr. destruct r; cbn [refreshRoute] in Hr;
    try (by apply refreshSingle_Ok_inv in Hr as [body ->]).
  by apply refreshNetflixRepos_Ok_inv in Hr as (st & Hst & ->).
Qed.

Lemma refreshRoutes_ready net fuel rs s s' :
  refreshRoutes json net fuel rs s = Ok s' -> ready s' = ready s.
Proof.
  revert s. induction rs as [|r rs IH]; intros s Hr; cbn [refreshRoutes] in Hr.
  - by injection Hr as <-.
  - destruct (refreshRoute json net fuel r s) as [s1| |] eqn:H1;
      cbn [mbind outcome_bind obind] in Hr; [|done..].
    rewrite (IH _ Hr). by eapply refreshRoute_ready.
Qed.

Lemma markReady_ready s : ready (markReady s) = true.
Proof. unfold markReady. by destruct (ready s) eqn:E. Qed.

Lemma refreshCaches_in_ready order net fuel s s' :
  refreshCaches_in json order net fuel s = Ok s' -> ready s' = true.
Proof.
  unfold refreshCaches_in. intros Hr.
  destruct (refreshRoutes json net fuel order s) as [s1| |];
    cbn [mbind outcome_bind obind] in Hr; [|done..].
  injection Hr as <-. apply markReady_ready.
Qed.

Lemma step_ready_stays s s' : step s s' -> ready s = true -> ready s' = true.
Proof.
  intros [s0 s1 net fuel r Hr|s0] Hs.
  - by rewrite (refreshRoute_ready _ _ _ _ _ Hr).
  - apply markReady_ready.
Qed.

Lemma Run_ready nets fuel s s' :
  Run json nets fuel s = Ok s' -> ready s = true \/ nets <> [] -> ready s' = true.
Proof.
  revert s. induction nets as [|net nets IH]; intros s Hrun Hs; cbn [Run] in Hrun.
  - injection Hrun as <-. by destruct Hs.
  - destruct (refreshCaches json net fuel s) as [s1| |] eqn:H1;
      cbn [mbind outcome_bind obind] in Hrun; [|done..].
    apply (IH _ Hrun). left. by eapply refreshCaches_in_ready.
Qed.

End States.

(** C5. In every state of the server that a reader can see, the four views
    hold the same records, by address, each once in each view, in some
    order; and the records of the views that a refresh of the repositories
    publishes are all allocated by that refresh: none of them is in a view
    of the state before. *)
Theorem views_hold_same_records `{SliceSorter} (json : Json) (s : Server) :
  reachable json s ->
  same_records s
  /\ (forall (net : Net) (fuel : nat) (s' : Server),
         refreshNetflixRepos json net fuel s = Ok s' ->
         forall p : ptr, in_views s' p -> ~ in_views s p).
Proof.
  intros Hs. pose proof (reachable_same_records json s Hs) as Hsame.
  split; [exact Hsame|].
  intros net fuel s' Hr p Hp' Hp.
  apply refreshNetflixRepos_Ok_inv in Hr as (st & Hst & ->).
  pose proof (publishRepos_fresh json s st p Hst Hp') as [Hge _].
  pose proof (same_records_in_views s p Hsame Hp). lia.
Qed.

(** ** The server run against the fixture *)

Module Cycle.

#[local] Existing Instance InsertionSort.sorter.

Definition from_Ok (m : outcome Server) : Server :=
  match m with Ok s => s | _ => Fixture.s0 end.

(** After the refresh of the repositories alone, and after a whole cycle. *)
Definition repos_only : Server :=
  from_Ok (refreshNetflixRepos Fixture.json Fixture.net 5 Fixture.s0).

Definition first : Server :=
  from_Ok (refreshCaches Fixture.json Fixture.net 5 Fixture.s0).

(** After a second cycle, in which a page of repositories does not decode. *)
Definition second : Server :=
  from_Ok (refreshCaches Fixture.json Fixture.net_page2_garbled 5 first).

End Cycle.

Example Cycle_first_views :
  (topForks Cycle.first, lastUpdated Cycle.first,
   topOpenIssues Cycle.first, topStars Cycle.first, ready Cycle.first)
  = ([1; 2; 0; 3]%nat, [1; 3; 2; 0]%nat, [2; 3; 0; 1]%nat, [0; 3; 1; 2]%nat, true).
Proof. vm_compute. reflexivity. Qed.

Example Cycle_first_caches :
  (caches Cycle.first !! kGitHubNetflixRepos, caches Cycle.first !! kGitHubRoot,
   caches Cycle.first !! "/nothing")
  = (Some "[A,B,C,D]", Some "{root}", None).
Proof. vm_compute. reflexivity. Qed.

Lemma Cycle_repos_only_reachable :
  reachable (H := InsertionSort.sorter) Fixture.json Cycle.repos_only.
Proof.
  exists 8080, "". apply rtc_once.
  apply (step_route Fixture.json Fixture.s0 Cycle.repos_only
           Fixture.net 5 NetflixRepos).
  vm_compute. reflexivity.
Defined.

(** The four views after a first refresh of the repositories. *)
Lemma views_after_first_refresh :
  reachable (H := InsertionSort.sorter) Fixture.json Cycle.repos_only
  /\ same_records Cycle.repos_only.
Proof.
  split; [exact Cycle_repos_only_reachable|].
  exact (proj1 (views_hold_same_records (H := InsertionSort.sorter)
                  Fixture.json Cycle.repos_only Cycle_repos_only_reachable)).
Defined.

(** ** The order of the four refreshes *)

(** Two runs end alike: in the same state, or neither in a state. *)
Definition same_outcome {A} (m1 m2 : outcome A) : Prop :=
  match m1, m2 with
  | Ok a, Ok b => a = b
  | Ok _, _ | _, Ok _ => False
  | _, _ => True
  end.

Lemma same_outcome_refl {A} (m : outcome A) : same_outcome m m.
Proof. by destruct m. Qed.

Lemma same_outcome_trans {A} (m1 m2 m3 : outcome A) :
  same_outcome m1 m2 -> same_outcome m2 m3 -> same_outcome m1 m3.
Proof. destruct m1, m2, m3; simpl; congruence || tauto. Qed.

Lemma same_outcome_bind {A B} (m1 m2 : outcome A) (k : A -> outcome B) :
  same_outcome m1 m2 -> same_outcome (m1 ≫= k) (m2 ≫= k).
Proof.
  destruct m1, m2; simpl; try tauto.
  intros ->. apply same_outcome_refl.
Qed.

(** The update of the cache of a route that has one page. *)
Definition set_cache (path body : string) (s : Server) : Server :=
  {| port := port s; apiToken := apiToken s;
     caches := <[path := body]> (caches s);
     topForks := topForks s; lastUpdated := lastUpdated s;
     topOpenIssues := topOpenIssues s; topStars := topStars s;
     ready := ready s; heap := heap s |}.

Section Order.

Context `{SliceSorter}.
Variable json : Json.

Lemma refreshSingle_eq path net s :
  refreshSingle path net s
  = omap (fun '(body, _, _) => set_cache path body s)
      (GetPage net (NewPagedGet path (apiToken s))).
Proof.
  unfold refreshSingle.
  by destruct (GetPage net (NewPagedGet path (apiToken s))) as [[[b n] g]| |].
Qed.

Lemma refreshNetflixRepos_eq net fuel s :
  refreshNetflixRepos json net fuel s
  = omap (fun '(st, _) => publishRepos json s st)
      (pagesLoop net (repos_step json) fuel
         (NewPagedGet kGitHubNetflixRepos (apiToken s))
         {| elms := []; repos := []; arena := heap s |}).
Proof.
  unfold refreshNetflixRepos.
  by destruct (pagesLoop net (repos_step json) fuel _ _) as [[st g]| |].
Qed.

Lemma set_cache_swap p1 p2 b1 b2 s :
  p1 <> p2 ->
  set_cache p1 b1 (set_cache p2 b2 s) = set_cache p2 b2 (set_cache p1 b1 s).
Proof.
  intros Hne. unfold set_cache. cbn. f_equal. by apply insert_insert_ne.
Qed.

Lemma set_cache_publishRepos p b s st :
  p <> kGitHubNetflixRepos ->
  set_cache p b (publishRepos json s st) = publishRepos json (set_cache p b s) st.
Proof.
  intros Hne. unfold set_cache, publishRepos. cbn. f_equal.
  by apply insert_insert_ne.
Qed.

Lemma refreshSingle_swap p1 p2 net s :
  p1 <> p2 ->
  same_outcome (refreshSingle p1 net s ≫= refreshSingle p2 net)
               (refreshSingle p2 net s ≫= refreshSingle p1 net).
Proof.
  intros Hne. rewrite (refreshSingle_eq p1 net s), (refreshSingle_eq p2 net s).
  destruct (GetPage net (NewPagedGet p1 (apiToken s))) as [[[b1 n1] g1]| |] eqn:E1;
    destruct (GetPage net (NewPagedGet p2 (apiToken s))) as [[[b2 n2] g2]| |] eqn:E2;
    cbn [omap mbind outcome_bind obind];
    rewrite ?refreshSingle_eq; cbn [set_cache apiToken]; rewrite ?E1, ?E2;
    cbn [omap same_outcome]; try done.
  by apply (set_cache_swap p2 p1).
Qed.

Lemma refreshSingle_repos_swap p net fuel s :
  p <> kGitHubNetflixRepos ->
  same_outcome (refreshSingle p net s ≫= refreshNetflixRepos json net fuel)
               (refreshNetflixRepos json net fuel s ≫= refreshSingle p net).
Proof.
  intros Hne. rewrite (refreshSingle_eq p net s), (refreshNetflixRepos_eq net fuel s).
  destruct (GetPage net (NewPagedGet p (apiToken s))) as [[[b n] g]| |] eqn:E1;
    destruct (pagesLoop net (repos_step json) fuel
                (NewPagedGet kGitHubNetflixRepos (apiToken s))
                {| elms := []; repos := []; arena := heap s |})
      as [[st g']| |] eqn:E2;
    cbn [omap mbind outcome_bind obind];
    rewrite ?refreshSingle_eq, ?refreshNetflixRepos_eq;
    cbn [set_cache publishRepos apiToken heap]; rewrite ?E1, ?E2;
    cbn [omap same_outcome]; try done.
  symmetry. by apply set_cache_publishRepos.
Qed.

Lemma same_outcome_sym {A} (m1 m2 : outcome A) :
  same_outcome m1 m2 -> same_outcome m2 m1.
Proof. destruct m1, m2; simpl; congruence || tauto. Qed.

Lemma refreshRoute_swap net fuel r1 r2 s :
  same_outcome
    (refreshRoute json net fuel r1 s ≫= refreshRoute json net fuel r2)
    (refreshRoute json net fuel r2 s ≫= refreshRoute json net fuel r1).
Proof.
  destruct r1, r2; try apply same_outcome_refl; cbn [refreshRoute];
    unfold refreshRoot, refreshNetflix, refreshNetflixMembers;
    first [ by apply refreshSingle_swap
          | by apply refreshSingle_repos_swap
          | apply same_outcome_sym; by apply refreshSingle_repos_swap ].
Qed.

Lemma refreshRoutes_two net fuel r1 r2 o s :
  refreshRoutes json net fuel (r1 :: r2 :: o) s
  = (refreshRoute json net fuel r1 s ≫= refreshRoute json net fuel r2)
      ≫= refreshRoutes json net fuel o.
Proof.
  cbn [refreshRoutes]. by destruct (refreshRoute json net fuel r1 s).
Qed.

(** The state that a cycle leaves does not depend on the order in which the
    four goroutines come to take the lock. *)
Lemma refreshRoutes_Permutation net fuel order1 order2 :
  Permutation order1 order2 ->
  forall s, same_outcome (refreshRoutes json net fuel order1 s)
                         (refreshRoutes json net fuel order2 s).
Proof.
  induction 1 as [|r o1 o2 Hperm IH|r1 r2 o|o1 o2 o3 H12 IH12 H23 IH23];
    intros s.
  - apply same_outcome_refl.
  - cbn [refreshRoutes].
    destruct (refreshRoute json net fuel r s) as [s1| |]; [apply IH|done..].
  - rewrite !refreshRoutes_two.
    apply same_outcome_bind, refreshRoute_swap.
  - eapply same_outcome_trans; [apply IH12|apply IH23].
Qed.

Lemma refreshCaches_any_order order net fuel s :
  Permutation order [Root; Netflix; NetflixRepos; NetflixMembers] ->
  same_outcome (refreshCaches_in json order net fuel s)
               (refreshCaches json net fuel s).
Proof.
  intros Hperm. unfold refreshCaches, refreshCaches_in.
  apply same_outcome_bind. by apply refreshRoutes_Permutation.
Qed.

End Order.

(** ** Failures of the upstream *)

(** The upstream with the status of every response replaced by [code]. *)
Definition with_status (code : Z) (net : Net) : Net :=
  {| NewRequest_err := NewRequest_err net;
     Do := fun req =>
       match Do net req with
       | inl err => inl err
       | inr resp => inr {| StatusCode := code;
                            RespHeader := RespHeader resp;
                            RespBody := RespBody resp |}
       end |}.

Definition transport_panic (url err : string) : string :=
  "Failed to issue http GET on url=" +:+ url +:+ ", err=" +:+ err.

Lemma GetPage_transport_error net path tok err :
  NewRequest_err net (api_url path) = None ->
  Do net (page_request (NewPagedGet path tok)) = inl err ->
  GetPage net (NewPagedGet path tok) = Panic (transport_panic (api_url path) err).
Proof.
  intros Hreq Hdo. unfold GetPage.
  cbn [NewPagedGet nextLink]. by rewrite Hreq, Hdo.
Qed.

Lemma GetPage_with_status code net g :
  GetPage (with_status code net) g = GetPage net g.
Proof.
  unfold GetPage. cbn [with_status NewRequest_err Do].
  destruct (String.eqb (nextLink g) ""); [reflexivity|].
  destruct (NewRequest_err net (nextLink g)); [reflexivity|].
  by destruct (Do net (page_request g)).
Qed.

Section Failures.

Context `{SliceSorter}.
Variable json : Json.

Lemma refreshRoute_apiToken net fuel r s s' :
  refreshRoute json net fuel r s = Ok s' -> apiToken s' = apiToken s.
Proof.
  intros Hr. destruct r; cbn [refreshRoute] in Hr;
    try (by apply refreshSingle_Ok_inv in Hr as [body ->]).
  by apply refreshNetflixRepos_Ok_inv in Hr as (st & Hst & ->).
Qed.

Lemma refreshRoute_transport_error net fuel r s err :
  NewRequest_err net (api_url (Route_path r)) = None ->
  Do net (page_request (NewPagedGet (Route_path r) (apiToken s))) = inl err ->
  (0 < fuel)%nat ->
  refreshRoute json net fuel r s
  = Panic (transport_panic (api_url (Route_path r)) err).
Proof.
  intros Hreq Hdo Hfuel.
  pose proof (GetPage_transport_error net _ _ err Hreq Hdo) as Hget.
  destruct r; cbn [refreshRoute Route_path] in *;
    try (unfold refreshRoot, refreshNetflix, refreshNetflixMembers,
           refreshSingle; by rewrite Hget).
  unfold refreshNetflixRepos. destruct fuel as [|fuel]; [lia|].
  cbn [pagesLoop]. by rewrite Hget.
Qed.

Lemma refreshRoutes_transport_error net fuel r err order :
  r ∈ order ->
  forall s,
    NewRequest_err net (api_url (Route_path r)) = None ->
    Do net (page_request (NewPagedGet (Route_path r) (apiToken s))) = inl err ->
    (0 < fuel)%nat ->
    is_Ok (refreshRoutes json net fuel order s) = false.
Proof.
  induction order as [|r0 order IH]; intros Hin s Hreq Hdo Hfuel.
  - by apply elem_of_nil in Hin.
  - cbn [refreshRoutes].
    destruct (refreshRoute json net fuel r0 s) as [s1| |] eqn:H1;
      cbn [mbind outcome_bind obind]; [|reflexivity..].
    apply elem_of_cons in Hin as [->|Hin].
    + by rewrite (refreshRoute_transport_error net fuel r0 s err) in H1.
    + apply IH; [exact Hin|exact Hreq| |exact Hfuel].
      by rewrite (refreshRoute_apiToken _ _ _ _ _ H1).
Qed.

Lemma refreshCaches_in_apiToken order net fuel s s' :
  refreshCaches_in json order net fuel s = Ok s' -> apiToken s' = apiToken s.
Proof.
  unfold refreshCaches_in. revert s.
  induction order as [|r order IH]; intros s Hr; cbn [refreshRoutes] in Hr.
  - cbn [mbind outcome_bind obind] in Hr. injection Hr as <-.
    unfold markReady. by destruct (ready s).
  - destruct (refreshRoute json net fuel r s) as [s1| |] eqn:H1;
      cbn [mbind outcome_bind obind] in Hr; [|done..].
    rewrite (IH s1 Hr). by eapply refreshRoute_apiToken.
Qed.

End Failures.

(** C2, against the claim: the root route cannot be reached in the second
    cycle, the three other routes can. The cycle panics, and with it the
    scheduler loop, which never comes to its third cycle. *)
Lemma root_transport_error_crashes :
  refreshCaches (H := InsertionSort.sorter) Fixture.json
    Fixture.net_root_down 5 Cycle.first
  = Panic "Failed to issue http GET on url=https://api.github.com/, err=dial tcp: i/o timeout"
  /\ Run (H := InsertionSort.sorter) Fixture.json
       [Fixture.net; Fixture.net_root_down; Fixture.net] 5 Fixture.s0
     = Panic "Failed to issue http GET on url=https://api.github.com/, err=dial tcp: i/o timeout".
Proof. split; vm_compute; reflexivity. Qed.

(** ** The views *)

(** The view that a sort key selects. *)
Definition view_of (s : Server) (sortBy : string) : option (list ptr) :=
  if String.eqb sortBy "forks" then Some (topForks s)
  else if String.eqb sortBy "last_updated" then Some (lastUpdated s)
  else if String.eqb sortBy "open_issues" then Some (topOpenIssues s)
  else if String.eqb sortBy "stars" then Some (topStars s)
  else None.

(** The key by which a view is sorted. *)
Definition key_of (sortBy : string) : viewElm -> Z :=
  if String.eqb sortBy "forks" then forks
  else if String.eqb sortBy "last_updated" then updated
  else if String.eqb sortBy "open_issues" then openIssues
  else stars.

(** A view in the order that the claim asks for: no record has a greater
    key than a record before it. *)
Definition descending (h : list viewElm) (f : viewElm -> Z) (v : list ptr) : Prop :=
  forall (i j : nat) (p q : ptr),
    (i < j)%nat -> v !! i = Some p -> v !! j = Some q -> field h f q <= field h f p.

Definition views_sorted (s : Server) : Prop :=
  descending (heap s) forks (topForks s)
  /\ descending (heap s) updated (lastUpdated s)
  /\ descending (heap s) openIssues (topOpenIssues s)
  /\ descending (heap s) stars (topStars s).

Lemma greater_LessOrder h f : LessOrder (greater h f).
Proof.
  unfold greater. split.
  - intros x. apply Z.ltb_irrefl.
  - intros x y z H1%Z.ltb_lt H2%Z.ltb_lt. apply Z.ltb_lt. lia.
  - intros x y z H1%Z.ltb_ge H2%Z.ltb_ge. apply Z.ltb_ge. lia.
Qed.

Section ViewFacts.

Context `{SliceSorter}.
Variable json : Json.
Variable Local : Location.

Lemma sort_Slice_descending h f (l : list ptr) :
  descending h f (sort_Slice (greater h f) l).
Proof.
  intros i j p q Hij Hi Hj.
  pose proof (sort_Slice_sorted ptr (greater h f) l (greater_LessOrder h f)
                i j p q Hij Hi Hj) as Hs.
  unfold greater in Hs. by apply Z.ltb_ge in Hs.
Qed.

Lemma step_views_sorted s s' : step json s s' -> views_sorted s -> views_sorted s'.
Proof.
  intros [s0 s1 net fuel r Hr|s0] IH.
  - destruct r; cbn [refreshRoute] in Hr;
      try (apply refreshSingle_Ok_inv in Hr as [body ->]; exact IH).
    apply refreshNetflixRepos_Ok_inv in Hr as (st & Hst & ->).
    repeat split; apply sort_Slice_descending.
  - unfold markReady. destruct (ready s0); exact IH.
Qed.

Lemma reachable_views_sorted s : reachable json s -> views_sorted s.
Proof.
  intros (port & tok & Hrtc). revert s Hrtc.
  apply (rtc_ind_r views_sorted (NewServer port tok)).
  - repeat split; intros i j p q _ Hi; cbn in Hi; by rewrite lookup_nil in Hi.
  - intros s s' _ Hstep IH. by eapply step_views_sorted.
Qed.

(** What [handleViews] prints for a record. *)
Definition render (sortBy : string) (e : viewElm) : string :=
  if String.eqb sortBy "last_updated"
  then sprint_updated Local (name e) (updated e)
  else sprint_count (name e) (key_of sortBy e).

Lemma view_elm_known s sortBy v ii :
  view_of s sortBy = Some v ->
  view_elm Local s sortBy ii = e ← elm_at s v ii; Ok (render sortBy e).
Proof.
  unfold view_of, view_elm, render, key_of.
  destruct (String.eqb_spec sortBy "forks") as [->|_];
    [by intros [= <-]|].
  destruct (String.eqb_spec sortBy "last_updated") as [->|_];
    [by intros [= <-]|].
  destruct (String.eqb_spec sortBy "open_issues") as [->|_];
    [by intros [= <-]|].
  destruct (String.eqb_spec sortBy "stars") as [->|_];
    [by intros [= <-]|done].
Qed.

Lemma view_elm_unknown s sortBy ii :
  view_of s sortBy = None -> view_elm Local s sortBy ii = Ok "".
Proof.
  unfold view_of, view_elm.
  repeat match goal with
         | |- context [String.eqb sortBy ?k] => destruct (String.eqb sortBy k)
         end; done.
Qed.

(** The loop when every turn gives an element. *)
Lemma views_loop_elems s sortBy count es :
  forall (ii : Z) (body : string),
    ii + Z.of_nat (length es) = count ->
    (forall (k : nat) (e : string),
        es !! k = Some e -> view_elm Local s sortBy (ii + Z.of_nat k) = Ok e) ->
    views_loop Local s sortBy count (length es) ii body
    = Ok (body +:+ String.concat "," es).
Proof.
  induction es as [|e es IH]; intros ii body Hcount Hes.
  - simpl. by rewrite append_nil_r.
  - cbn [length views_loop].
    pose proof (Hes 0%nat e eq_refl) as He. rewrite Z.add_0_r in He.
    rewrite He. cbn [mbind outcome_bind obind].
    rewrite IH.
    + f_equal. cbn [length] in Hcount. destruct es as [|e' es].
      * simpl. destruct (Z.ltb_spec ii (count - 1)); [simpl in *; lia|].
        by rewrite append_nil_r.
      * destruct (Z.ltb_spec ii (count - 1)); [|cbn [length] in *; lia].
        cbn [String.concat]. by rewrite !append_assoc.
    + cbn [length] in Hcount. lia.
    + intros k e' Hk. specialize (Hes (S k) e' Hk).
      by replace (ii + 1 + Z.of_nat k) with (ii + Z.of_nat (S k)) by lia.
Qed.

(** The loop when a turn panics: the turns before it must not. *)
Lemma views_loop_panic s sortBy count msg (j : Z) :
  view_elm Local s sortBy j = Panic msg ->
  forall (todo : nat) (ii : Z) (body : string),
    ii <= j < ii + Z.of_nat todo ->
    (forall k, ii <= k < j -> is_Ok (view_elm Local s sortBy k) = true) ->
    views_loop Local s sortBy count todo ii body = Panic msg.
Proof.
  intros Hj. induction todo as [|todo IH]; intros ii body Hrange Hbefore; [lia|].
  cbn [views_loop]. destruct (Z.eq_dec ii j) as [->|Hne].
  - by rewrite Hj.
  - pose proof (Hbefore ii ltac:(lia)) as Hii.
    destruct (view_elm Local s sortBy ii) as [e| |]; [|done..].
    cbn [mbind outcome_bind obind]. apply IH; [lia|].
    intros k Hk. apply Hbefore. lia.
Qed.

End ViewFacts.

(** ** The handler of the views *)

Definition tokens_of (r : Incoming) : list string :=
  Split (TrimSpace (InPath r)) "/".

Lemma index_Some {A} (l : list A) (k : nat) (x : A) :
  l !! k = Some x -> index l (Z.of_nat k) = Ok x.
Proof.
  intros Hk. unfold index.
  destruct (Z.ltb_spec (Z.of_nat k) 0); [lia|].
  by rewrite Nat2Z.id, Hk.
Qed.

Lemma index_beyond {A} (l : list A) (i : Z) :
  Z.of_nat (length l) <= i -> index l i = Panic "index out of range".
Proof.
  intros Hi. unfold index.
  destruct (Z.ltb_spec i 0); [reflexivity|].
  rewrite lookup_ge_None_2; [reflexivity|lia].
Qed.

Section HandlerFacts.

Variable Local : Location.

Lemma elm_at_Some s v (k : nat) p e :
  v !! k = Some p -> heap s !! p = Some e -> elm_at s v (Z.of_nat k) = Ok e.
Proof.
  intros Hk Hp. unfold elm_at. rewrite (index_Some v k p Hk).
  cbn [mbind outcome_bind obind]. by rewrite Hp.
Qed.

Lemma elm_at_beyond s v ii :
  Z.of_nat (length v) <= ii -> elm_at s v ii = Panic "index out of range".
Proof. intros Hi. unfold elm_at. by rewrite index_beyond. Qed.

Lemma handleViews_unfold s r t3 sortBy :
  tokens_of r !! 3%nat = Some t3 ->
  tokens_of r !! 4%nat = Some sortBy ->
  handleViews Local s r
  = body ← views_loop Local s sortBy (Atoi t3).1 (Z.to_nat (Atoi t3).1) 0 "[";
    Ok {| Status := StatusOK; WHeader := []; WBody := body +:+ "]" |}.
Proof.
  intros H3 H4. unfold handleViews. fold (tokens_of r).
  rewrite (index_Some _ 3 _ H3 : index (tokens_of r) 3 = Ok t3).
  cbn [mbind outcome_bind obind].
  by rewrite (index_Some _ 4 _ H4 : index (tokens_of r) 4 = Ok sortBy).
Qed.

(** The first [n] records of a view, when [n] is no more than its size. *)
Lemma handleViews_top s r t3 sortBy v (n : nat) :
  same_records s ->
  tokens_of r !! 3%nat = Some t3 ->
  tokens_of r !! 4%nat = Some sortBy ->
  view_of s sortBy = Some v ->
  (Atoi t3).1 = Z.of_nat n ->
  (n <= length v)%nat ->
  exists es : list viewElm,
    mapM (fun p => heap s !! p) (take n v) = Some es
    /\ length es = n
    /\ handleViews Local s r
       = Ok {| Status := StatusOK; WHeader := [];
               WBody := "[" +:+ String.concat "," (render Local sortBy <$> es)
                        +:+ "]" |}.
Proof.
  intros Hsame H3 H4 Hv Hcount Hn.
  assert (is_Some (mapM (fun p => heap s !! p) (take n v))) as [es Hes].
  { apply mapM_is_Some, Forall_forall. intros p Hp.
    apply lookup_lt_is_Some.
    apply (same_records_in_views s p Hsame).
    apply elem_of_take in Hp as (i & Hp & _).
    apply list_elem_of_lookup_2 in Hp.
    unfold view_of in Hv. unfold in_views.
    repeat match type of Hv with
           | (if ?b then _ else _) = _ => destruct b
           end; injection Hv as <- || discriminate; auto. }
  pose proof Hes as HF%mapM_Some.
  assert (length es = n) as Hlen.
  { rewrite <- (Forall2_length _ _ _ HF), length_take. lia. }
  exists es. split; [exact Hes|]. split; [exact Hlen|].
  rewrite (handleViews_unfold s r t3 sortBy H3 H4), Hcount, Nat2Z.id.
  rewrite <- Hlen, <- (length_fmap (render Local sortBy) es).
  rewrite views_loop_elems.
  - cbn [mbind outcome_bind obind]. by rewrite append_assoc.
  - rewrite length_fmap. lia.
  - intros k e' Hk. rewrite list_lookup_fmap in Hk.
    destruct (es !! k) as [e|] eqn:Hek; [|done]. injection Hk as <-.
    destruct (Forall2_lookup_r _ _ _ _ _ HF Hek) as (p & Hp & Hpe).
    apply lookup_take_Some in Hp as [Hp _].
    rewrite (view_elm_known Local s sortBy v _ Hv), Z.add_0_l.
    by rewrite (elm_at_Some s v k p e Hp Hpe).
Qed.

(** A count beyond the size of the view: the loop indexes past the end. *)
Lemma handleViews_beyond s r t3 sortBy v :
  same_records s ->
  tokens_of r !! 3%nat = Some t3 ->
  tokens_of r !! 4%nat = Some sortBy ->
  view_of s sortBy = Some v ->
  Z.of_nat (length v) < (Atoi t3).1 ->
  handleViews Local s r = Panic "index out of range".
Proof.
  intros Hsame H3 H4 Hv Hcount.
  rewrite (handleViews_unfold s r t3 sortBy H3 H4).
  rewrite (views_loop_panic Local s sortBy _ "index out of range"
             (Z.of_nat (length v))); [reflexivity| | |].
  - rewrite (view_elm_known Local s sortBy v _ Hv), elm_at_beyond; [done|lia].
  - lia.
  - intros k Hk.
    rewrite (view_elm_known Local s sortBy v _ Hv).
    destruct (lookup_lt_is_Some_2 v (Z.to_nat k) ltac:(lia)) as [p Hp].
    assert (is_Some (heap s !! p)) as [e He].
    { apply lookup_lt_is_Some. apply (same_records_in_views s p Hsame).
      apply list_elem_of_lookup_2 in Hp.
      unfold view_of in Hv. unfold in_views.
      repeat match type of Hv with
             | (if ?b then _ else _) = _ => destruct b
             end; injection Hv as <- || discriminate; auto. }
    replace k with (Z.of_nat (Z.to_nat k)) by lia.
    by rewrite (elm_at_Some s v _ p e Hp He).
Qed.

End HandlerFacts.

Definition get (path : string) : Incoming := Fixture.incoming "GET" path.

Definition written (body : string) : Written :=
  {| Status := 200; WHeader := []; WBody := body |}.

(** The example of the specification: of the repositories A, with 5 forks
    and 10 stars, and B, with 9 forks and 2 stars, B has the most forks and A
    the most stars. *)
Example top_one :
  handleViews UTC Cycle.first (get "/view/top/1/forks")
  = Ok (written (Fixture.quoted "[['Netflix/B',9]]"))
  /\ handleViews UTC Cycle.first (get "/view/top/1/stars")
     = Ok (written (Fixture.quoted "[['Netflix/A',10]]")).
Proof. split; vm_compute; reflexivity. Qed.

(** C1, on the code: the views hold four records. A count of four gives
    the four, the most forked first; a count of five makes the loop read
    [s.topForks[4]], and the handler panics instead of answering with the
    four. *)
Theorem top_five_of_four_panics :
  length (topForks Cycle.first) = 4%nat
  /\ handleViews UTC Cycle.first (get "/view/top/4/forks")
     = Ok (written (Fixture.quoted
             "[['Netflix/B',9],['Netflix/C',7],['Netflix/A',5],['Netflix/D',1]]"))
  /\ handleViews UTC Cycle.first (get "/view/top/5/forks")
     = Panic "index out of range".
Proof. repeat split; vm_compute; reflexivity. Qed.

(** ** Requests for a view with parameters that are not valid *)

Fixpoint commas (n : nat) : string :=
  match n with
  | O => ""
  | S n' => "," +:+ commas n'
  end.

Lemma concat_empty_elems n :
  String.concat "," (replicate n "") = commas (n - 1).
Proof.
  induction n as [|[|n] IH]; [reflexivity..|].
  cbn [replicate String.concat] in *. rewrite IH. simpl.
  by rewrite Nat.sub_0_r.
Qed.

(** A count that is no number reads as 0. *)
Lemma Atoi_ErrSyntax t : (Atoi t).2 = Some ErrSyntax -> (Atoi t).1 = 0.
Proof.
  unfold Atoi.
  destruct (match t with
            | String "-"%char s' => (true, s')
            | String "+"%char s' => (false, s')
            | _ => (false, t)
            end) as [neg ds].
  destruct (ParseUint ds) as [un [[]|]]; [done| |];
    destruct (negb neg && (2 ^ 63 <=? un)); try done;
    destruct (neg && (2 ^ 63 <? un)); done.
Qed.

(** C6, as the code has it. For a request [/view/top/N/key]: when [N] is no
    number or is negative, the handler does not panic and answers with the
    status 200 and the empty array, for any key; when the key is none of the
    four, it does not panic and answers with the status 200 and a body that
    holds no element, only the commas that would part [N] elements. No
    error response is made. *)
Theorem invalid_view_parameters_get_200 (Local : Location) (s : Server)
    (r : Incoming) (t3 sortBy : string) :
  tokens_of r !! 3%nat = Some t3 ->
  tokens_of r !! 4%nat = Some sortBy ->
  ((Atoi t3).2 = Some ErrSyntax \/ (Atoi t3).1 < 0 ->
   handleViews Local s r = Ok {| Status := 200; WHeader := []; WBody := "[]" |})
  /\ (view_of s sortBy = None ->
      handleViews Local s r
      = Ok {| Status := 200; WHeader := [];
              WBody := "[" +:+ commas (Z.to_nat (Atoi t3).1 - 1) +:+ "]" |}).
Proof.
  intros H3 H4. rewrite (handleViews_unfold Local s r t3 sortBy H3 H4). split.
  - intros Hbad.
    assert ((Atoi t3).1 <= 0) as Hle.
    { destruct Hbad as [Hsyn%Atoi_ErrSyntax|Hneg]; lia. }
    replace (Z.to_nat (Atoi t3).1) with 0%nat by lia. reflexivity.
  - intros Hkey.
    set (n := Z.to_nat (Atoi t3).1).
    pose proof (views_loop_elems Local s sortBy (Atoi t3).1
                  (replicate n "") 0 "[") as Hloop.
    rewrite length_replicate in Hloop.
    destruct (Z.le_gt_cases (Atoi t3).1 0) as [Hle|Hgt].
    + replace n with 0%nat by lia. reflexivity.
    + rewrite Hloop.
      * cbn [mbind outcome_bind obind].
        by rewrite concat_empty_elems, append_assoc.
      * lia.
      * intros k e [-> _]%lookup_replicate.
        by apply view_elm_unknown.
Qed.

(** A negative count, and a key that no view has. *)
Lemma invalid_view_parameters_examples :
  (tokens_of (get "/view/top/-3/forks") !! 3%nat = Some "-3"
   /\ tokens_of (get "/view/top/-3/forks") !! 4%nat = Some "forks"
   /\ handleViews UTC Cycle.first (get "/view/top/-3/forks") = Ok (written "[]"))
  /\ (tokens_of (get "/view/top/3/watchers") !! 3%nat = Some "3"
      /\ tokens_of (get "/view/top/3/watchers") !! 4%nat = Some "watchers"
      /\ handleViews UTC Cycle.first (get "/view/top/3/watchers")
         = Ok (written "[,,]")).
Proof.
  split; (split; [reflexivity|]); (split; [reflexivity|]).
  - apply (proj1 (invalid_view_parameters_get_200 UTC Cycle.first
                    (get "/view/top/-3/forks") "-3" "forks" eq_refl eq_refl)).
    right. vm_compute. reflexivity.
  - apply (proj2 (invalid_view_parameters_get_200 UTC Cycle.first
                    (get "/view/top/3/watchers") "3" "watchers" eq_refl eq_refl)).
    vm_compute. reflexivity.
Defined.

(** C6, against the claim: an unknown key, a negative count and a count
    that is no number are all answered with the status 200; for the unknown
    key the body is no JSON. *)
Lemma invalid_view_parameters_no_error :
  handleViews UTC Cycle.first (get "/view/top/2/bogus") = Ok (written "[,]")
  /\ handleViews UTC Cycle.first (get "/view/top/-1/forks") = Ok (written "[]")
  /\ handleViews UTC Cycle.first (get "/view/top/many/stars") = Ok (written "[]").
Proof. repeat split; vm_compute; reflexivity. Qed.

(** A path that stops before the key has no [tokens[4]]. *)
Example handleViews_without_key :
  handleViews UTC Cycle.first (get "/view/top/2") = Panic "index out of range".
Proof. vm_compute. reflexivity. Qed.

(** ** The rendering of [last_updated] *)

(** C7, on the code: the view by last update, served in three zones. With
    UTC as the local zone, and in Los Angeles in winter, the offset and the
    name of the zone stay in the text, before the Z; in Los Angeles in summer
    the suffix is cut, and what is left is the local time of day, seven hours
    behind UTC, marked with Z. The text depends on the zone of the server,
    and in none of the three is it an ISO 8601 time in UTC. *)
Theorem last_updated_shows_the_local_zone :
  handleViews UTC Cycle.first (get "/view/top/1/last_updated")
  = Ok (written (Fixture.quoted
          "[['Netflix/B','2018-07-15 12:00:00 +0000 UTCZ']]"))
  /\ handleViews LosAngeles2018 Cycle.first (get "/view/top/1/last_updated")
     = Ok (written (Fixture.quoted "[['Netflix/B','2018-07-15 05:00:00 Z']]"))
  /\ handleViews Kolkata Cycle.first (get "/view/top/1/last_updated")
     = Ok (written (Fixture.quoted
             "[['Netflix/B','2018-07-15 17:30:00 +0530 ISTZ']]"))
  /\ sprint_updated LosAngeles2018 "A" Fixture.jan15
     = Fixture.quoted "['Netflix/A','2018-01-15 04:00:00 -0800 PSTZ']".
Proof. repeat split; vm_compute; reflexivity. Qed.

(** ** The pass-through *)

(** C8, as the code has it. [handleRoot] is the handler of the pattern [/],
    to which the mux gives every request that no other pattern matches. A
    request that comes to it for a path other than the root itself is passed
    to the upstream as a GET request, whatever its own method, for the same
    path and query, with the same headers and the same body; when the
    upstream answers, the body of the answer is what the client gets, under
    the status 200. *)
Theorem unrecognized_path_is_forwarded_as_GET (net : Net) (s : Server)
    (r : Incoming) (resp : Response) :
  InPath r <> "/" ->
  NewRequest_err net (api_url (InURL r)) = None ->
  Do net {| Method := "GET"; URL := api_url (InURL r);
            ReqHeader := InHeader r; ReqBody := InBody r |} = inr resp ->
  forward_request r
  = {| Method := "GET"; URL := api_url (InURL r);
       ReqHeader := InHeader r; ReqBody := InBody r |}
  /\ handleRoot net s r
     = Ok {| Status := 200; WHeader := []; WBody := RespBody resp |}.
Proof.
  intros Hpath%String.eqb_neq Hreq Hdo. split; [reflexivity|].
  unfold handleRoot, Forward. rewrite Hpath.
  fold (api_url (InURL r)). rewrite Hreq.
  change (forward_request r)
    with {| Method := "GET"; URL := api_url (InURL r);
            ReqHeader := InHeader r; ReqBody := InBody r |}.
  by rewrite Hdo.
Qed.

Definition post_octocat : Incoming :=
  {| InMethod := "POST"; InPath := "/users/octocat"; InURL := "/users/octocat";
     InHeader := [("Content-Type", "application/json")];
     InBody := "{}" |}.

(** A POST for a path that the server does not know. *)
Lemma post_is_forwarded_as_GET :
  InPath post_octocat <> "/"
  /\ handleRoot Fixture.net_echo_method Cycle.first post_octocat
     = Ok {| Status := 200; WHeader := []; WBody := "GET" |}.
Proof.
  split; [discriminate|].
  apply (proj2 (unrecognized_path_is_forwarded_as_GET
                  Fixture.net_echo_method Cycle.first post_octocat
                  {| StatusCode := 200; RespHeader := []; RespBody := "GET" |}
                  ltac:(discriminate) eq_refl eq_refl)).
Defined.

(** C8, against the claim: the method of the request that goes upstream is
    not the method of the incoming request; an upstream that echoes the
    method it is asked with answers GET to a POST. *)
Lemma forwarded_method_is_not_the_incoming_one :
  InMethod post_octocat = "POST"
  /\ Method (forward_request post_octocat) = "GET"
  /\ serve UTC Fixture.net_echo_method Cycle.first post_octocat
     = Ok (written "GET").
Proof. repeat split; vm_compute; reflexivity. Qed.

(** ** A page that does not decode *)

(** The entities that the pages decode to, in the order of the pages. *)
Definition entities (json : Json) (bodies : list string)
  : list (option Repository) :=
  concat (map (fun body => (Unmarshal json body).1) bodies).

Lemma fold_pages_repos_step json h0 bodies :
  forall rs new es,
    mapM to_elm (entities json bodies) = Some es ->
    fold_pages (repos_step json) (loop_state h0 rs new) bodies
    = Ok (loop_state h0 (rs ++ entities json bodies) (new ++ es)).
Proof.
  induction bodies as [|b bodies IH]; intros rs new es Hes.
  - injection Hes as <-. simpl. by rewrite !app_nil_r.
  - unfold entities in Hes. cbn [map concat] in Hes.
    apply mapM_Some, Forall2_app_inv_l in Hes as (es1 & es2 & H1 & H2 & ->).
    apply mapM_Some in H1, H2.
    cbn [fold_pages].
    change (repos_step json (loop_state h0 rs new) b)
      with (process_page (loop_state h0 rs new) (Unmarshal json b).1).
    rewrite (process_page_loop_state h0 rs new _ es1 H1).
    cbn [mbind outcome_bind obind].
    rewrite (IH _ _ es2 H2).
    unfold entities. cbn [map concat]. by rewrite !app_assoc.
Qed.

Lemma entities_skip json pre bad post :
  (Unmarshal json bad).1 = [] ->
  entities json (pre ++ bad :: post) = entities json (pre ++ post).
Proof.
  intros Hbad. unfold entities.
  rewrite !map_app, !concat_app. cbn [map concat]. by rewrite Hbad.
Qed.

Lemma Fixture_garbled_chain :
  page_chain Fixture.net_page2_garbled "" (api_url kGitHubNetflixRepos)
    (["[A,B]"] ++ "<html>" :: ["[D]"]).
Proof.
  apply (page_chain_next Fixture.net_page2_garbled "" Fixture.page1
           (Fixture.response Fixture.links1 "[A,B]") Fixture.page2);
    [discriminate|reflexivity|reflexivity| |].
  { exact (LinkHeader_entries Fixture.links1 ltac:(discriminate) eq_refl). }
  apply (page_chain_next Fixture.net_page2_garbled "" Fixture.page2
           (Fixture.response Fixture.links2 "<html>") Fixture.page3);
    [discriminate|reflexivity|reflexivity| |].
  { exact (LinkHeader_entries Fixture.links2 ltac:(discriminate) eq_refl). }
  apply (page_chain_last Fixture.net_page2_garbled "" Fixture.page3
           (Fixture.response Fixture.links3 "[D]"));
    [discriminate|reflexivity|reflexivity|].
  exact (LinkHeader_entries Fixture.links3 ltac:(discriminate) eq_refl).
Defined.

Example garbled_second_page_run :
  omap (fun s => (topForks s, caches s !! kGitHubNetflixRepos))
    (refreshNetflixRepos (H := InsertionSort.sorter) Fixture.json
       Fixture.net_page2_garbled 9 Fixture.s0)
  = Ok ([1; 0; 2]%nat, Some "[A,B,D]").
Proof. vm_compute. reflexivity. Qed.

(** * Further properties of the fetcher *)

(** One call of [GetPage] that returns: the fetcher before and after. *)
Definition GetPage_step (net : Net) (g g' : PagedGet) : Prop :=
  exists (body : string) (next : bool), GetPage net g = Ok (body, next, g').

Lemma scan_links_Ok_inv g body linkRels b next g' :
  scan_links g body linkRels = Ok (b, next, g') ->
  b = body /\ authHdr g' = authHdr g.
Proof.
  induction linkRels as [|lr rest IH]; cbn [scan_links].
  - by intros [= <- <- <-].
  - destruct (index (Split lr ";") 1) as [l1| |]; cbn [mbind outcome_bind obind];
      [|done..].
    destruct (String.eqb (TrimSpace l1) rel_next); [|exact IH].
    destruct (index (Split lr ";") 0) as [l0| |]; cbn [mbind outcome_bind obind];
      [|done..].
    by intros [= <- <- <-].
Qed.

Lemma GetPage_Ok_inv net g b next g' :
  GetPage net g = Ok (b, next, g') ->
  authHdr g' = authHdr g
  /\ exists resp, Do net (page_request g) = inr resp /\ b = RespBody resp.
Proof.
  unfold GetPage.
  destruct (String.eqb (nextLink g) ""); [done|].
  destruct (NewRequest_err net (nextLink g)); [done|].
  destruct (Do net (page_request g)) as [err|resp]; [done|].
  destruct (String.eqb (Header_Get (RespHeader resp) "Link") "").
  - intros [= <- <- <-]. eauto.
  - intros [-> Hauth]%scan_links_Ok_inv. eauto.
Qed.

(** X1. Every request of a walk that starts from [NewPagedGet path apiToken]
    is a GET without a body for the stored link, with the Accept header of
    the API version, and with an Authorization header, of value "token "
    followed by the token, exactly when the token is not empty: [GetPage]
    never changes the credentials. *)
Theorem walk_requests_carry_the_token (net : Net) (path apiToken : string)
    (g : PagedGet) :
  rtc (GetPage_step net) (NewPagedGet path apiToken) g ->
  page_request g
  = {| Method := "GET";
       URL := nextLink g;
       ReqHeader :=
         ("Accept", "application/vnd.github.v3+json")
           :: (if String.eqb apiToken "" then []
               else [("Authorization", "token " +:+ apiToken)]);
       ReqBody := "" |}.
Proof.
  intros Hwalk.
  assert (authHdr g = authHdr (NewPagedGet path apiToken)) as Hauth.
  { induction Hwalk as [|g0 g1 g2 (body & next & Hget) _ IH]; [reflexivity|].
    rewrite IH. by apply GetPage_Ok_inv in Hget as [-> _]. }
  unfold page_request. rewrite Hauth. cbn [NewPagedGet authHdr].
  destruct (String.eqb apiToken "") eqn:Htok; [reflexivity|].
  reflexivity.
Qed.

(** The second request of a walk with the token [s3cr3t]. *)
Lemma walk_requests_carry_the_token_witness :
  rtc (GetPage_step Fixture.net) (NewPagedGet kGitHubNetflixRepos "s3cr3t")
    {| nextLink := Fixture.page2; authHdr := "token s3cr3t" |}
  /\ page_request {| nextLink := Fixture.page2; authHdr := "token s3cr3t" |}
     = {| Method := "GET"; URL := Fixture.page2;
          ReqHeader := [("Accept", "application/vnd.github.v3+json");
                        ("Authorization", "token s3cr3t")];
          ReqBody := "" |}.
Proof.
  assert (rtc (GetPage_step Fixture.net)
            (NewPagedGet kGitHubNetflixRepos "s3cr3t")
            {| nextLink := Fixture.page2; authHdr := "token s3cr3t" |}) as Hwalk.
  { apply rtc_once. exists "[A,B]", true. vm_compute. reflexivity. }
  split; [exact Hwalk|].
  exact (walk_requests_carry_the_token Fixture.net kGitHubNetflixRepos "s3cr3t"
           _ Hwalk).
Defined.

(** X2. When the Link header of the response is made of entries
    [<url>; rel="name"], [GetPage] returns the body of the response and
    follows the first entry whose relation is "next", wherever it stands
    among the entries: it reports more pages and stores the URL of that
    entry, without the angle brackets; with no such entry it reports the end
    and keeps its link. *)
Theorem GetPage_follows_first_next (net : Net) (g : PagedGet) (resp : Response)
    (es : list (string * string)) :
  nextLink g <> "" ->
  NewRequest_err net (nextLink g) = None ->
  Do net (page_request g) = inr resp ->
  Header_Get (RespHeader resp) "Link" = link_header es ->
  es <> [] ->
  forallb link_entry_ok es = true ->
  GetPage net g
  = Ok (RespBody resp,
        bool_decide (is_Some (next_target es)),
        match next_target es with
        | Some url => {| nextLink := url; authHdr := authHdr g |}
        | None => g
        end).
Proof.
  intros Hne Hreq Hdo Hhdr Hes Hok.
  apply (GetPage_LinkHeader net g resp (next_target es) Hne Hreq Hdo).
  rewrite Hhdr. by apply LinkHeader_entries.
Qed.

(** The second page of the fixture: "prev" comes before "next". *)
Lemma GetPage_follows_first_next_witness :
  GetPage Fixture.net {| nextLink := Fixture.page2; authHdr := "" |}
  = Ok ("[C]", true, {| nextLink := Fixture.page3; authHdr := "" |}).
Proof.
  exact (GetPage_follows_first_next Fixture.net
           {| nextLink := Fixture.page2; authHdr := "" |}
           (Fixture.response Fixture.links2 "[C]") Fixture.links2
           ltac:(discriminate) eq_refl eq_refl eq_refl ltac:(discriminate)
           eq_refl).
Defined.

Lemma pagesLoop_self_link {St} (P : St -> Prop) net
    (step : St -> string -> outcome St) g resp :
  nextLink g <> "" ->
  NewRequest_err net (nextLink g) = None ->
  Do net (page_request g) = inr resp ->
  LinkHeader (Header_Get (RespHeader resp) "Link") (Some (nextLink g)) ->
  (forall st, P st -> exists st', step st (RespBody resp) = Ok st' /\ P st') ->
  forall fuel st, P st -> pagesLoop net step fuel g st = OutOfFuel.
Proof.
  intros Hne Hreq Hdo Hlink Hstep.
  induction fuel as [|fuel IH]; intros st Hst; [reflexivity|].
  cbn [pagesLoop].
  rewrite (GetPage_LinkHeader net g resp _ Hne Hreq Hdo Hlink).
  cbn [mbind outcome_bind obind advance].
  destruct (Hstep st Hst) as (st' & -> & Hst').
  cbn [mbind outcome_bind obind].
  rewrite bool_decide_eq_true_2 by eauto.
  rewrite PagedGet_eta. by apply IH.
Qed.

(** X3. The page loop has no guard against a cycle of links: when the
    first page of the repositories names itself as the next page, and its
    entities have the fields that the loop reads, the refresh of the
    repositories does not end, whatever fuel it is given. *)
Theorem refreshNetflixRepos_self_link_never_ends `{SliceSorter} (json : Json)
    (net : Net) (s : Server) (resp : Response) (es : list viewElm) :
  NewRequest_err net (api_url kGitHubNetflixRepos) = None ->
  Do net (page_request (NewPagedGet kGitHubNetflixRepos (apiToken s)))
  = inr resp ->
  LinkHeader (Header_Get (RespHeader resp) "Link")
    (Some (api_url kGitHubNetflixRepos)) ->
  mapM to_elm (Unmarshal json (RespBody resp)).1 = Some es ->
  forall fuel : nat, refreshNetflixRepos json net fuel s = OutOfFuel.
Proof.
  intros Hreq Hdo Hlink Hes fuel. unfold refreshNetflixRepos.
  rewrite (pagesLoop_self_link
             (fun st => exists rs new, st = loop_state (heap s) rs new)
             net (repos_step json) _ resp); [reflexivity|discriminate|
    exact Hreq|exact Hdo|exact Hlink| |].
  - intros st (rs & new & ->). eexists. split; [|eauto].
    unfold repos_step. by apply process_page_loop_state.
  - exists [], []. apply loop_state_nil.
Qed.

(** An upstream whose page of repositories is its own successor. *)
Definition net_self_link : Net := {|
  NewRequest_err := fun _ => None;
  Do := fun _ =>
    Fixture.reply [(api_url kGitHubNetflixRepos, "next")] "[C]"
|}.

Lemma refreshNetflixRepos_self_link_witness :
  LinkHeader (link_header [(api_url kGitHubNetflixRepos, "next")])
    (Some (api_url kGitHubNetflixRepos))
  /\ refreshNetflixRepos (H := InsertionSort.sorter) Fixture.json
       net_self_link 1000 Fixture.s0 = OutOfFuel.
Proof.
  assert (LinkHeader (link_header [(api_url kGitHubNetflixRepos, "next")])
            (Some (api_url kGitHubNetflixRepos))) as Hlink.
  { exact (LinkHeader_entries [(api_url kGitHubNetflixRepos, "next")]
             ltac:(discriminate) eq_refl). }
  split; [exact Hlink|].
  exact (refreshNetflixRepos_self_link_never_ends (H := InsertionSort.sorter)
           Fixture.json net_self_link Fixture.s0
           (Fixture.response [(api_url kGitHubNetflixRepos, "next")] "[C]")
           [ {| name := "C"; forks := 7; updated := Fixture.jan15 + 1;
                openIssues := 8; stars := 2 |} ]
           eq_refl eq_refl Hlink eq_refl 1000%nat).
Defined.

(** X4. [GetPage] reads [l[1]] of every entry of the Link header that
    comes before the "next" entry, without a look at the length of [l]: when
    the first entry of a header holds no semicolon, the call panics with an
    index out of range, whatever follows that entry. *)
Theorem GetPage_entry_without_semicolon_panics (net : Net) (g : PagedGet)
    (resp : Response) (entry rest : string) :
  nextLink g <> "" ->
  NewRequest_err net (nextLink g) = None ->
  Do net (page_request g) = inr resp ->
  Header_Get (RespHeader resp) "Link" = entry +:+ rest ->
  entry +:+ rest <> "" ->
  rest = "" \/ (exists rest', rest = "," +:+ rest') ->
  free_of "," entry = true ->
  free_of ";" entry = true ->
  GetPage net g = Panic "index out of range".
Proof.
  intros Hne%String.eqb_neq Hreq Hdo Hhdr Hnonempty%String.eqb_neq Hrest Hc Hs.
  unfold GetPage. rewrite Hne, Hreq, Hdo, Hhdr, Hnonempty.
  assert (exists pieces, Split (entry +:+ rest) "," = entry :: pieces)
    as [pieces ->].
  { unfold Split. destruct Hrest as [->|[rest' ->]].
    - rewrite append_nil_r, split_free by exact Hc. eauto.
    - change ("," +:+ rest') with (String "," rest').
      rewrite split_cons by exact Hc. eauto. }
  cbn [scan_links]. unfold Split. rewrite split_free by exact Hs.
  reflexivity.
Qed.

Lemma GetPage_entry_without_semicolon_witness :
  GetPage {| NewRequest_err := fun _ => None;
             Do := fun _ =>
               inr {| StatusCode := 200;
                      RespHeader := [("Link", "<https://api.github.com/x>, <https://api.github.com/y>; rel=" +:+ dquote +:+ "next" +:+ dquote)];
                      RespBody := "[]" |} |}
    (NewPagedGet kGitHubNetflixRepos "")
  = Panic "index out of range".
Proof.
  apply (GetPage_entry_without_semicolon_panics _ _
           {| StatusCode := 200;
              RespHeader := [("Link", "<https://api.github.com/x>, <https://api.github.com/y>; rel=" +:+ dquote +:+ "next" +:+ dquote)];
              RespBody := "[]" |}
           "<https://api.github.com/x>"
           (", <https://api.github.com/y>; rel=" +:+ dquote +:+ "next" +:+ dquote));
    try reflexivity; try discriminate.
  right. eexists. reflexivity.
Defined.

(** X5. The guard of [GetPage] against an empty link is reached through a
    "next" entry with an empty target: the call that reads that entry
    reports more pages, and the next turn of the page loop panics with
    "GetPage beyond page chain.". *)
Theorem pagesLoop_empty_next_target_panics {St : Type} (net : Net)
    (step : St -> string -> outcome St) (g : PagedGet) (resp : Response)
    (st st' : St) (fuel : nat) :
  nextLink g <> "" ->
  NewRequest_err net (nextLink g) = None ->
  Do net (page_request g) = inr resp ->
  LinkHeader (Header_Get (RespHeader resp) "Link") (Some "") ->
  step st (RespBody resp) = Ok st' ->
  GetPage net g
  = Ok (RespBody resp, true, {| nextLink := ""; authHdr := authHdr g |})
  /\ pagesLoop net step (S (S fuel)) g st = Panic "GetPage beyond page chain.".
Proof.
  intros Hne Hreq Hdo Hlink Hstep.
  pose proof (GetPage_LinkHeader net g resp _ Hne Hreq Hdo Hlink) as Hget.
  cbn [advance] in Hget. rewrite bool_decide_eq_true_2 in Hget by eauto.
  split; [exact Hget|].
  cbn [pagesLoop]. rewrite Hget. cbn [mbind outcome_bind obind].
  rewrite Hstep. reflexivity.
Qed.

Definition net_empty_next : Net := {|
  NewRequest_err := fun _ => None;
  Do := fun _ => Fixture.reply [("", "next")] "[C]"
|}.

Lemma pagesLoop_empty_next_target_witness :
  LinkHeader (link_header [("", "next")]) (Some "")
  /\ pagesLoop net_empty_next keep_body 2
       (NewPagedGet kGitHubNetflixRepos "") []
     = Panic "GetPage beyond page chain.".
Proof.
  assert (LinkHeader (link_header [("", "next")]) (Some "")) as Hlink.
  { exact (LinkHeader_entries [("", "next")] ltac:(discriminate) eq_refl). }
  split; [exact Hlink|].
  exact (proj2 (pagesLoop_empty_next_target_panics net_empty_next keep_body
                  (NewPagedGet kGitHubNetflixRepos "")
                  (Fixture.response [("", "next")] "[C]") [] ["[C]"] 0
                  ltac:(discriminate) eq_refl eq_refl Hlink eq_refl)).
Defined.

(** * Further properties of the server *)

Definition json_header : Header :=
  [("Content-Type", "application/json; charset=utf-8")].

#[local] Instance Route_eq_dec : EqDecision Route.
Proof. solve_decision. Defined.

Section CacheFacts.

Context `{SliceSorter}.
Variable json : Json.

Lemma refreshRoute_single_inv net fuel r s s' :
  r <> NetflixRepos ->
  refreshRoute json net fuel r s = Ok s' ->
  exists body next g',
    GetPage net (NewPagedGet (Route_path r) (apiToken s)) = Ok (body, next, g')
    /\ s' = set_cache (Route_path r) body s.
Proof.
  intros Hr Hs'.
  assert (refreshSingle (Route_path r) net s = Ok s') as Hsingle
    by by destruct r.
  rewrite refreshSingle_eq in Hsingle.
  destruct (GetPage net (NewPagedGet (Route_path r) (apiToken s)))
    as [[[body next] g']| |]; [|done..].
  injection Hsingle as <-. eauto.
Qed.

Lemma Route_path_inj r1 r2 : Route_path r1 = Route_path r2 -> r1 = r2.
Proof. by destruct r1, r2. Qed.

Lemma refreshRoute_frame net fuel r s s' :
  refreshRoute json net fuel r s = Ok s' ->
  forall r', r' <> r -> caches s' !! Route_path r' = caches s !! Route_path r'.
Proof.
  intros Hs' r' Hne.
  assert (Route_path r <> Route_path r') as Hpath
    by (intros Heq%Route_path_inj; congruence).
  destruct (decide (r = NetflixRepos)) as [->|Hr].
  - apply refreshNetflixRepos_Ok_inv in Hs' as (st & _ & ->).
    cbn [publishRepos caches]. by apply lookup_insert_ne.
  - apply refreshRoute_single_inv in Hs' as (body & next & g' & _ & ->);
      [|exact Hr].
    cbn [set_cache caches]. by apply lookup_insert_ne.
Qed.

End CacheFacts.

Section ServeFacts.

Context `{SliceSorter}.
Variable json : Json.
Variable Local : Location.

Lemma serve_cached_route net s r req :
  InPath req = Route_path r ->
  serve Local net s req = Ok (cached s (Route_path r)).
Proof.
  intros Hpath. unfold serve, handleRoot. rewrite Hpath. by destruct r.
Qed.

Lemma refreshRoutes_frame net fuel rs r s s' :
  r ∉ rs ->
  refreshRoutes json net fuel rs s = Ok s' ->
  caches s' !! Route_path r = caches s !! Route_path r.
Proof.
  revert s. induction rs as [|r0 rs IH]; intros s Hr Hs'; cbn [refreshRoutes] in Hs'.
  - by injection Hs' as <-.
  - apply not_elem_of_cons in Hr as [Hne Hr].
    destruct (refreshRoute json net fuel r0 s) as [s1| |] eqn:H1;
      cbn [mbind outcome_bind obind] in Hs'; [|done..].
    rewrite (IH s1 Hr Hs').
    by apply (refreshRoute_frame json net fuel r0 s s1 H1).
Qed.

Lemma views_loop_set_cache p b s sortBy count todo :
  forall ii body,
    views_loop Local (set_cache p b s) sortBy count todo ii body
    = views_loop Local s sortBy count todo ii body.
Proof.
  induction todo as [|todo IH]; intros ii body; [reflexivity|].
  cbn [views_loop].
  change (view_elm Local (set_cache p b s) sortBy ii)
    with (view_elm Local s sortBy ii).
  destruct (view_elm Local s sortBy ii); cbn [mbind outcome_bind obind];
    [apply IH|reflexivity..].
Qed.

Lemma handleViews_set_cache p b s req :
  handleViews Local (set_cache p b s) req = handleViews Local s req.
Proof.
  unfold handleViews.
  destruct (index (Split (TrimSpace (InPath req)) "/") 3);
    cbn [mbind outcome_bind obind]; [|reflexivity..].
  destruct (index (Split (TrimSpace (InPath req)) "/") 4);
    cbn [mbind outcome_bind obind]; [|reflexivity..].
  by rewrite views_loop_set_cache.
Qed.

End ServeFacts.

(** X6. What the refresh of a one-page route stores is what the handler of
    that route serves: after [refreshRoot], [refreshNetflix] or
    [refreshNetflixMembers] has returned, a request for the path of the route
    is answered with the status 200, the JSON content type and the body of the
    response that the upstream gave to the one request of the refresh. *)
Theorem refreshed_route_is_served `{SliceSorter} (json : Json) (Local : Location)
    (net net' : Net) (fuel : nat) (r : Route) (s s' : Server)
    (resp : Response) (req : Incoming) :
  r <> NetflixRepos ->
  refreshRoute json net fuel r s = Ok s' ->
  Do net (page_request (NewPagedGet (Route_path r) (apiToken s))) = inr resp ->
  InPath req = Route_path r ->
  serve Local net' s' req
  = Ok {| Status := 200; WHeader := json_header; WBody := RespBody resp |}.
Proof.
  intros Hr Hs' Hdo Hpath.
  apply (refreshRoute_single_inv json) in Hs'
    as (body & next & g' & Hget & ->); [|exact Hr].
  apply GetPage_Ok_inv in Hget as (_ & resp' & Hdo' & ->).
  rewrite Hdo in Hdo'. injection Hdo' as <-.
  rewrite (serve_cached_route Local net' _ r req Hpath).
  unfold cached. cbn [set_cache caches]. by rewrite lookup_insert_eq.
Qed.

Lemma refreshed_route_is_served_witness :
  refreshRoute (H := InsertionSort.sorter) Fixture.json Fixture.net 5 Netflix
    Fixture.s0
  = Ok (set_cache kGitHubNetflix "{org}" Fixture.s0)
  /\ serve UTC Fixture.net_root_down (set_cache kGitHubNetflix "{org}" Fixture.s0)
       (get "/orgs/Netflix")
     = Ok {| Status := 200; WHeader := json_header; WBody := "{org}" |}.
Proof.
  assert (refreshRoute (H := InsertionSort.sorter) Fixture.json Fixture.net 5
            Netflix Fixture.s0
          = Ok (set_cache kGitHubNetflix "{org}" Fixture.s0)) as Hr
    by (vm_compute; reflexivity).
  split; [exact Hr|].
  exact (refreshed_route_is_served (H := InsertionSort.sorter) Fixture.json UTC
           Fixture.net Fixture.net_root_down 5 Netflix Fixture.s0 _
           (Fixture.response [] "{org}") (get "/orgs/Netflix")
           ltac:(discriminate) Hr eq_refl eq_refl).
Defined.

(** X7. The refresh of a route changes what that route serves and nothing
    else that a client can see: a request for the path of another route is
    answered as before, the health check is answered as before, and, unless
    the route is the one of the repositories, so is every request for a
    view. *)
Theorem refresh_leaves_other_routes `{SliceSorter} (json : Json)
    (Local : Location) (net net' : Net) (fuel : nat) (r : Route)
    (s s' : Server) :
  refreshRoute json net fuel r s = Ok s' ->
  (forall (r' : Route) (req : Incoming),
      r' <> r -> InPath req = Route_path r' ->
      serve Local net' s' req = serve Local net' s req)
  /\ handleHealthCheck s' = handleHealthCheck s
  /\ (r <> NetflixRepos ->
      forall req : Incoming, handleViews Local s' req = handleViews Local s req).
Proof.
  intros Hs'. split; [|split].
  - intros r' req Hne Hpath.
    rewrite !(serve_cached_route Local net' _ r' req Hpath).
    unfold cached.
    by rewrite (refreshRoute_frame json net fuel r s s' Hs' r' Hne).
  - unfold handleHealthCheck.
    by rewrite (refreshRoute_ready json net fuel r s s' Hs').
  - intros Hr req.
    apply (refreshRoute_single_inv json) in Hs'
      as (body & next & g' & _ & ->); [|exact Hr].
    apply handleViews_set_cache.
Qed.

Lemma refresh_leaves_other_routes_witness :
  refreshRoute (H := InsertionSort.sorter) Fixture.json
    Fixture.net_page2_garbled 5 NetflixRepos Cycle.first
  = Ok (Cycle.from_Ok
          (refreshRoute (H := InsertionSort.sorter) Fixture.json
             Fixture.net_page2_garbled 5 NetflixRepos Cycle.first))
  /\ serve UTC Fixture.net
       (Cycle.from_Ok
          (refreshRoute (H := InsertionSort.sorter) Fixture.json
             Fixture.net_page2_garbled 5 NetflixRepos Cycle.first))
       (get "/orgs/Netflix/members")
     = serve UTC Fixture.net Cycle.first (get "/orgs/Netflix/members").
Proof.
  assert (refreshRoute (H := InsertionSort.sorter) Fixture.json
            Fixture.net_page2_garbled 5 NetflixRepos Cycle.first
          = Ok (Cycle.from_Ok
                  (refreshRoute (H := InsertionSort.sorter) Fixture.json
                     Fixture.net_page2_garbled 5 NetflixRepos Cycle.first)))
    as Hr by (vm_compute; reflexivity).
  split; [exact Hr|].
  exact (proj1 (refresh_leaves_other_routes (H := InsertionSort.sorter)
                  Fixture.json UTC Fixture.net_page2_garbled Fixture.net 5
                  NetflixRepos Cycle.first _ Hr)
           NetflixMembers (get "/orgs/Netflix/members")
           ltac:(discriminate) eq_refl).
Defined.

(** X8. A route that no refresh has written yet is served all the same:
    in the state that any refreshes of other routes leave of a new server, a
    request for its path is answered with the status 200 and an empty body,
    while the health check answers 503. *)
Theorem unrefreshed_route_serves_empty_body `{SliceSorter} (json : Json)
    (Local : Location) (net net' : Net) (fuel : nat) (rs : list Route)
    (r : Route) (port : Z) (apiToken : string) (s : Server) (req : Incoming) :
  r ∉ rs ->
  refreshRoutes json net fuel rs (NewServer port apiToken) = Ok s ->
  InPath req = Route_path r ->
  serve Local net' s req
  = Ok {| Status := 200; WHeader := json_header; WBody := "" |}
  /\ Status (handleHealthCheck s) = 503.
Proof.
  intros Hr Hs Hpath. split.
  - rewrite (serve_cached_route Local net' s r req Hpath). unfold cached.
    by rewrite (refreshRoutes_frame json net fuel rs r _ s Hr Hs).
  - unfold handleHealthCheck.
    by rewrite (refreshRoutes_ready json net fuel rs _ s Hs).
Qed.

Lemma unrefreshed_route_serves_empty_body_witness :
(NetflixMembers ∉ [Root; NetflixRepos])
  /\ serve UTC Fixture.net
       (Cycle.from_Ok
          (refreshRoutes (H := InsertionSort.sorter) Fixture.json Fixture.net 5
             [Root; NetflixRepos] Fixture.s0))
       (get "/orgs/Netflix/members")
     = Ok {| Status := 200; WHeader := json_header; WBody := "" |}.
Proof.
  assert (NetflixMembers ∉ [Root; NetflixRepos]) as Hnot.
  { intros Hin. repeat (apply elem_of_cons in Hin as [Hin|Hin]; [discriminate|]).
    by apply elem_of_nil in Hin. }
  split; [exact Hnot|].
  apply (unrefreshed_route_serves_empty_body (H := InsertionSort.sorter)
           Fixture.json UTC Fixture.net Fixture.net 5 [Root; NetflixRepos]
           NetflixMembers 8080 "" _ (get "/orgs/Netflix/members") Hnot);
    [vm_compute; reflexivity|reflexivity].
Defined.

(** The records that the pointers of a view point to. *)
Definition view_records (s : Server) (v : list ptr) : list viewElm :=
  base.omap (fun p => heap s !! p) v.

(** The body of the repositories and the views tell of the same entities:
    the body is the JSON of the entities [rs], or is not there yet when there
    is none, and each view holds the records of [rs], one for each entity. *)
Definition body_matches_views (json : Json) (s : Server) : Prop :=
  exists (rs : list (option Repository)) (es : list viewElm),
    mapM to_elm rs = Some es
    /\ (caches s !! kGitHubNetflixRepos = Some (Marshal json rs)
        \/ (caches s !! kGitHubNetflixRepos = None /\ rs = []))
    /\ Permutation (view_records s (topForks s)) es
    /\ Permutation (view_records s (lastUpdated s)) es
    /\ Permutation (view_records s (topOpenIssues s)) es
    /\ Permutation (view_records s (topStars s)) es.

Lemma omap_lookup_seq {A} (h : list A) (a n : nat) :
  (a + n <= length h)%nat ->
  base.omap (fun p => h !! p) (seq a n) = take n (skipn a h).
Proof.
  revert a. induction n as [|n IH]; intros a Hlen; [reflexivity|].
  cbn [seq base.omap list_omap].
  destruct (lookup_lt_is_Some_2 h a ltac:(lia)) as [x Hx].
  rewrite Hx, (drop_S h x a Hx). cbn [take]. f_equal.
  apply IH. lia.
Qed.

Lemma omap_lookup_new {A} (h0 new : list A) :
  base.omap (fun p => (h0 ++ new) !! p) (seq (length h0) (length new)) = new.
Proof.
  rewrite omap_lookup_seq by (rewrite length_app; lia).
  rewrite drop_app_length. by apply take_ge.
Qed.

Section Invariants.

Context `{SliceSorter}.
Variable json : Json.

Lemma step_body_matches_views s s' :
  step json s s' -> body_matches_views json s -> body_matches_views json s'.
Proof.
  intros [s0 s1 net fuel r Hr|s0] IH.
  - destruct (decide (r = NetflixRepos)) as [->|Hne].
    + apply refreshNetflixRepos_Ok_inv in Hr as (st & (rs & new & Hnew & ->) & ->).
      exists rs, new. split; [exact Hnew|].
      split; [left; apply lookup_insert_eq|].
      unfold view_records.
      cbn [publishRepos loop_state heap topForks lastUpdated topOpenIssues
           topStars elms arena].
      repeat split; rewrite sort_Slice_perm; by rewrite omap_lookup_new.
    + apply (refreshRoute_single_inv json) in Hr
        as (body & next & g' & _ & ->); [|exact Hne].
      destruct IH as (rs & es & Hes & Hbody & Hviews).
      exists rs, es. split; [exact Hes|]. split; [|exact Hviews].
      cbn [set_cache caches].
      rewrite lookup_insert_ne; [exact Hbody|by destruct r].
  - unfold markReady. destruct (ready s0); exact IH.
Qed.

Lemma step_heap_prefix s s' : step json s s' -> heap s `prefix_of` heap s'.
Proof.
  intros [s0 s1 net fuel r Hr|s0].
  - destruct (decide (r = NetflixRepos)) as [->|Hne].
    + apply refreshNetflixRepos_Ok_inv in Hr as (st & (rs & new & _ & ->) & ->).
      cbn [publishRepos loop_state heap arena]. by apply prefix_app_r.
    + by apply (refreshRoute_single_inv json) in Hr
        as (body & next & g' & _ & ->).
  - unfold markReady. by destruct (ready s0).
Qed.

Lemma step_port_apiToken s s' :
  step json s s' -> port s' = port s /\ apiToken s' = apiToken s.
Proof.
  intros [s0 s1 net fuel r Hr|s0].
  - destruct (decide (r = NetflixRepos)) as [->|Hne].
    + by apply refreshNetflixRepos_Ok_inv in Hr as (st & _ & ->).
    + by apply (refreshRoute_single_inv json) in Hr
        as (body & next & g' & _ & ->).
  - unfold markReady. by destruct (ready s0).
Qed.

End Invariants.

(** X9. In every state that a reader can see, the cached body of the
    repositories and the four views are of the same generation: the body is
    the JSON of a list of entities, and each view holds exactly the records
    made of these entities, one for each; before the first refresh of the
    repositories there is no body and the views are empty. *)
Theorem body_and_views_agree `{SliceSorter} (json : Json) (s : Server) :
  reachable json s -> body_matches_views json s.
Proof.
  intros (port & tok & Hrtc). revert s Hrtc.
  apply (rtc_ind_r (body_matches_views json) (NewServer port tok)).
  - exists [], []. split; [reflexivity|].
    split; [right; split; [apply lookup_empty|reflexivity]|].
    repeat split; reflexivity.
  - intros s s' _ Hstep IH. by eapply step_body_matches_views.
Qed.

Lemma body_and_views_agree_witness :
  reachable (H := InsertionSort.sorter) Fixture.json Cycle.repos_only
  /\ body_matches_views Fixture.json Cycle.repos_only.
Proof.
  split; [exact Cycle_repos_only_reachable|].
  exact (body_and_views_agree (H := InsertionSort.sorter) Fixture.json
           Cycle.repos_only Cycle_repos_only_reachable).
Defined.

(** X10. In every state that a reader can see, each of the four views is
    sorted: no record has a greater key (forks, time of update, open issues,
    stars) than a record that stands before it in the view. *)
Theorem views_are_descending `{SliceSorter} (json : Json) (s : Server) :
  reachable json s ->
  descending (heap s) forks (topForks s)
  /\ descending (heap s) updated (lastUpdated s)
  /\ descending (heap s) openIssues (topOpenIssues s)
  /\ descending (heap s) stars (topStars s).
Proof.
  intros (port & tok & Hrtc). revert s Hrtc.
  apply (rtc_ind_r views_sorted (NewServer port tok)).
  - repeat split; intros i j p q _ Hi; cbn in Hi; by rewrite lookup_nil in Hi.
  - intros s s' _ Hstep IH. by eapply step_views_sorted.
Qed.

Lemma views_are_descending_witness :
  reachable (H := InsertionSort.sorter) Fixture.json Cycle.repos_only
  /\ descending (heap Cycle.repos_only) stars (topStars Cycle.repos_only).
Proof.
  split; [exact Cycle_repos_only_reachable|].
  exact (proj2 (proj2 (proj2
           (views_are_descending (H := InsertionSort.sorter) Fixture.json
              Cycle.repos_only Cycle_repos_only_reachable)))).
Defined.

(** X11. No step of the server changes a record that has been allocated, the
    port or the token: from one state to a later one the arena of the records
    only grows at its end, so that a pointer that a reader took from a view
    still points to the same record. *)
Theorem records_are_never_changed `{SliceSorter} (json : Json) (s s' : Server) :
  rtc (step json) s s' ->
  heap s `prefix_of` heap s'
  /\ (forall (p : ptr) (e : viewElm),
         heap s !! p = Some e -> heap s' !! p = Some e)
  /\ port s' = port s
  /\ apiToken s' = apiToken s.
Proof.
  intros Hrtc.
  assert (heap s `prefix_of` heap s' /\ port s' = port s
          /\ apiToken s' = apiToken s) as (Hpre & Hport & Htok).
  { induction Hrtc as [s|s s1 s2 Hstep _ IH]; [done|].
    destruct IH as (IHh & IHp & IHt).
    pose proof (step_heap_prefix json s s1 Hstep).
    pose proof (step_port_apiToken json s s1 Hstep) as [Hp Ht].
    split; [by etrans|]. split; congruence. }
  repeat split; try done.
  intros p e Hp. by eapply prefix_lookup_Some.
Qed.

Lemma records_are_never_changed_witness :
  rtc (step (H := InsertionSort.sorter) Fixture.json) Fixture.s0 Cycle.repos_only
  /\ heap Fixture.s0 `prefix_of` heap Cycle.repos_only.
Proof.
  assert (rtc (step (H := InsertionSort.sorter) Fixture.json) Fixture.s0
            Cycle.repos_only) as Hrtc.
  { apply rtc_once.
    apply (step_route Fixture.json Fixture.s0 Cycle.repos_only
             Fixture.net 5 NetflixRepos).
    vm_compute. reflexivity. }
  split; [exact Hrtc|].
  exact (proj1 (records_are_never_changed (H := InsertionSort.sorter)
                  Fixture.json Fixture.s0 Cycle.repos_only Hrtc)).
Defined.

(** X12. The state that a refresh cycle leaves does not depend on the order
    in which the four goroutines take the lock: for two orders of the same
    routes, the cycle ends in a state with the one exactly when it ends in
    that same state with the other. *)
Theorem cycle_state_is_independent_of_order `{SliceSorter} (json : Json)
    (order1 order2 : list Route) (net : Net) (fuel : nat) (s s' : Server) :
  Permutation order1 order2 ->
  refreshCaches_in json order1 net fuel s = Ok s'
  <-> refreshCaches_in json order2 net fuel s = Ok s'.
Proof.
  intros Hperm.
  assert (same_outcome (refreshCaches_in json order1 net fuel s)
            (refreshCaches_in json order2 net fuel s)) as Hsame.
  { unfold refreshCaches_in.
    apply same_outcome_bind. by apply refreshRoutes_Permutation. }
  destruct (refreshCaches_in json order1 net fuel s) as [s1| |],
      (refreshCaches_in json order2 net fuel s) as [s2| |];
    simpl in Hsame; try done.
  by subst.
Qed.

Lemma cycle_state_is_independent_of_order_witness :
  Permutation [NetflixMembers; NetflixRepos; Root; Netflix]
    [Root; Netflix; NetflixRepos; NetflixMembers]
  /\ refreshCaches_in (H := InsertionSort.sorter) Fixture.json
       [NetflixMembers; NetflixRepos; Root; Netflix] Fixture.net 5 Fixture.s0
     = Ok Cycle.first.
Proof.
  assert (Permutation [NetflixMembers; NetflixRepos; Root; Netflix]
            [Root; Netflix; NetflixRepos; NetflixMembers]) as Hperm.
  { apply (Permutation_trans
             (l' := [NetflixRepos; Root; Netflix; NetflixMembers])).
    - apply (Permutation_cons_append [NetflixRepos; Root; Netflix] NetflixMembers).
    - apply (Permutation_trans (l' := [Root; NetflixRepos; Netflix; NetflixMembers])).
      + apply perm_swap.
      + apply perm_skip, perm_swap. }
  split; [exact Hperm|].
  apply (cycle_state_is_independent_of_order (H := InsertionSort.sorter)
           Fixture.json _ _ Fixture.net 5 Fixture.s0 Cycle.first Hperm).
  vm_compute. reflexivity.
Defined.

(** An entity that the loop of [refreshNetflixRepos] cannot read: a null
    element of the array, or a repository without one of the four fields
    that the loop dereferences with a star. *)
Definition unreadable (r : option Repository) : Prop :=
  match r with
  | None => True
  | Some r' =>
      Name r' = None \/ ForksCount r' = None \/ OpenIssuesCount r' = None
      \/ StargazersCount r' = None
  end.

Lemma unreadable_to_elm r : unreadable r -> to_elm r = None.
Proof.
  destruct r as [[[n|] [f|] [u|] [o|] [s|]]|]; simpl; try done;
    intros [?|[?|[?|?]]]; done.
Qed.

Lemma process_page_None h0 rs new page :
  mapM to_elm page = None ->
  process_page (loop_state h0 rs new) page = Panic nil_dereference.
Proof.
  revert rs new. induction page as [|r page IH]; intros rs new Hnone; [done|].
  cbn [process_page]. rewrite process_repo_loop_state.
  cbn [mapM] in Hnone.
  destruct (to_elm r) as [e|]; [|reflexivity].
  cbn [mbind outcome_bind obind option_bind] in *.
  apply IH. by destruct (mapM to_elm page).
Qed.

Lemma fold_pages_None json h0 bodies :
  forall rs new,
    mapM to_elm (entities json bodies) = None ->
    fold_pages (repos_step json) (loop_state h0 rs new) bodies
    = Panic nil_dereference.
Proof.
  induction bodies as [|b bodies IH]; intros rs new Hnone; [done|].
  cbn [fold_pages].
  change (repos_step json (loop_state h0 rs new) b)
    with (process_page (loop_state h0 rs new) (Unmarshal json b).1).
  destruct (mapM to_elm (Unmarshal json b).1) as [es1|] eqn:H1.
  - rewrite (process_page_loop_state h0 rs new _ es1 H1).
    cbn [mbind outcome_bind obind]. apply IH.
    destruct (mapM to_elm (entities json bodies)) as [es2|] eqn:H2; [|done].
    unfold entities in Hnone. cbn [map concat] in Hnone.
    fold (entities json bodies) in Hnone.
    by rewrite (mapM_to_elm_app _ _ _ _ H1 H2) in Hnone.
  - by rewrite (process_page_None h0 rs new _ H1).
Qed.

(** X13. One entity that cannot be read makes the whole refresh of the
    repositories panic: when a page of the chain decodes to an array with a
    null element, or with a repository without a name, a fork count, a count
    of open issues or a count of stars, the refresh panics on a nil pointer,
    whatever the other pages hold, and nothing is published. *)
Theorem unreadable_entity_panics_the_refresh `{SliceSorter} (json : Json)
    (net : Net) (fuel : nat) (s : Server) (bodies : list string)
    (r : option Repository) :
  page_chain net (authHdr (NewPagedGet kGitHubNetflixRepos (apiToken s)))
    (api_url kGitHubNetflixRepos) bodies ->
  (length bodies <= fuel)%nat ->
  r ∈ entities json bodies ->
  unreadable r ->
  refreshNetflixRepos json net fuel s = Panic nil_dereference.
Proof.
  intros Hchain Hfuel Hin Hbad.
  rewrite (refreshNetflixRepos_chain json net fuel s _ Hchain Hfuel).
  rewrite loop_state_nil, fold_pages_None; [reflexivity|].
  destruct (mapM to_elm (entities json bodies)) as [es|] eqn:Hes; [|done].
  apply mapM_Some in Hes.
  apply list_elem_of_lookup_1 in Hin as [i Hi].
  destruct (Forall2_lookup_l _ _ _ i r Hes Hi) as (e & _ & He).
  by rewrite (unreadable_to_elm r Hbad) in He.
Qed.

(** The codec of the fixture, but for the repository C, which comes without
    a name. *)
Definition json_nameless : Json := {|
  Unmarshal := fun body =>
    if String.eqb body "[C]"
    then ([Some {| Name := None; ForksCount := Some 7;
                   UpdatedAt := Some Fixture.jan15;
                   OpenIssuesCount := Some 8; StargazersCount := Some 2 |}],
          None)
    else Unmarshal Fixture.json body;
  Marshal := Marshal Fixture.json
|}.

Lemma unreadable_entity_panics_the_refresh_witness :
  page_chain Fixture.net "" (api_url kGitHubNetflixRepos) ["[A,B]"; "[C]"; "[D]"]
  /\ refreshNetflixRepos (H := InsertionSort.sorter) json_nameless Fixture.net 3
       Cycle.first
     = Panic nil_dereference.
Proof.
  split; [exact Fixture_repos_chain|].
  apply (unreadable_entity_panics_the_refresh (H := InsertionSort.sorter)
           json_nameless Fixture.net 3 Cycle.first ["[A,B]"; "[C]"; "[D]"]
           (Some {| Name := None; ForksCount := Some 7;
                    UpdatedAt := Some Fixture.jan15;
                    OpenIssuesCount := Some 8; StargazersCount := Some 2 |})
           Fixture_repos_chain).
  - simpl. lia.
  - apply list_elem_of_In. vm_compute. tauto.
  - left. reflexivity.
Defined.

(** ** A request for a view, by its path *)

Section ViewPath.

Context `{SliceSorter}.
Variable json : Json.
Variable Local : Location.

Definition view_path (t3 key : string) : string :=
  "/view/top/" +:+ t3 +:+ "/" +:+ key.

Lemma view_of_Some_key s key v :
  view_of s key = Some v ->
  key = "forks" \/ key = "last_updated" \/ key = "open_issues" \/ key = "stars".
Proof.
  unfold view_of.
  destruct (String.eqb_spec key "forks"); [auto|].
  destruct (String.eqb_spec key "last_updated"); [auto|].
  destruct (String.eqb_spec key "open_issues"); [auto|].
  destruct (String.eqb_spec key "stars"); [auto|done].
Qed.

Lemma TrimSpace_view_path t3 key0 c :
  plain c = true ->
  TrimSpace (view_path t3 (key0 +:+ String c ""))
  = view_path t3 (key0 +:+ String c "").
Proof.
  intros Hc.
  assert (view_path t3 (key0 +:+ String c "")
          = String "/" (("view/top/" +:+ t3 +:+ "/" +:+ key0) +:+ String c ""))
    as ->.
  { unfold view_path. simpl. by rewrite !append_assoc. }
  by apply TrimSpace_plain.
Qed.

Lemma tokens_view_path req t3 key :
  InPath req = view_path t3 key ->
  free_of "/" t3 = true ->
  key = "forks" \/ key = "last_updated" \/ key = "open_issues" \/ key = "stars" ->
  tokens_of req = [""; "view"; "top"; t3; key].
Proof.
  intros Hpath Ht3 Hkey. unfold tokens_of. rewrite Hpath.
  assert (TrimSpace (view_path t3 key) = view_path t3 key) as ->.
  { destruct Hkey as [-> | [-> | [-> | ->]]].
    - exact (TrimSpace_view_path t3 "fork" "s" eq_refl).
    - exact (TrimSpace_view_path t3 "last_update" "d" eq_refl).
    - exact (TrimSpace_view_path t3 "open_issue" "s" eq_refl).
    - exact (TrimSpace_view_path t3 "star" "s" eq_refl). }
  assert (free_of "/" key = true) as Hk
    by (by destruct Hkey as [-> | [-> | [-> | ->]]]).
  unfold Split.
  change (view_path t3 key)
    with ("" +:+ String "/" ("view" +:+ String "/" ("top" +:+ String "/"
            (t3 +:+ String "/" key)))).
  rewrite !split_cons by done.
  by rewrite (split_free "/" key Hk).
Qed.

Lemma mux_view_path t3 key : mux (view_path t3 key) = ViewsH.
Proof.
  unfold mux, view_path. simpl.
  destruct (ascii_dec "/" "/"); [|done].
  by rewrite prefix_nil.
Qed.

End ViewPath.

(** X14. A request [/view/top/N/key] for one of the four keys and a decimal
    count [N] that is no greater than the number of repositories: in every
    state that a reader can see, the answer has the status 200 and its body
    is the JSON array of the first [N] records of the view of that key, in
    the order of the view, each printed with its name after "Netflix/" and
    its key. *)
Theorem view_request_returns_the_first_N `{SliceSorter} (json : Json)
    (Local : Location) (net : Net) (s : Server) (req : Incoming)
    (t3 key : string) (v : list ptr) (n : nat) :
  reachable json s ->
  InPath req = view_path t3 key ->
  free_of "/" t3 = true ->
  view_of s key = Some v ->
  Atoi t3 = (Z.of_nat n, None) ->
  (n <= length v)%nat ->
  exists es : list viewElm,
    mapM (fun p => heap s !! p) (take n v) = Some es
    /\ length es = n
    /\ serve Local net s req
       = Ok {| Status := 200; WHeader := [];
               WBody := "[" +:+ String.concat "," (render Local key <$> es)
                        +:+ "]" |}.
Proof.
  intros Hs Hpath Ht3 Hv Hcount Hn.
  pose proof (tokens_view_path req t3 key Hpath Ht3 (view_of_Some_key s key v Hv))
    as Htok.
  destruct (handleViews_top Local s req t3 key v n
              (reachable_same_records json s Hs)
              ltac:(by rewrite Htok) ltac:(by rewrite Htok) Hv
              ltac:(by rewrite Hcount) Hn)
    as (es & Hes & Hlen & Hbody).
  exists es. split; [exact Hes|]. split; [exact Hlen|].
  unfold serve. by rewrite Hpath, mux_view_path.
Qed.

Lemma view_request_returns_the_first_N_witness :
  reachable (H := InsertionSort.sorter) Fixture.json Cycle.repos_only
  /\ view_of Cycle.repos_only "open_issues" = Some [2; 3; 0; 1]%nat
  /\ Atoi "2" = (2, None)
  /\ exists es : list viewElm,
       length es = 2%nat
       /\ serve UTC Fixture.net Cycle.repos_only (get "/view/top/2/open_issues")
          = Ok {| Status := 200; WHeader := [];
                  WBody := "[" +:+ String.concat ","
                                     (render UTC "open_issues" <$> es) +:+ "]" |}.
Proof.
  split; [exact Cycle_repos_only_reachable|].
  split; [vm_compute; reflexivity|].
  split; [reflexivity|].
  destruct (view_request_returns_the_first_N (H := InsertionSort.sorter)
              Fixture.json UTC Fixture.net Cycle.repos_only
              (get "/view/top/2/open_issues") "2" "open_issues"
              [2; 3; 0; 1]%nat 2 Cycle_repos_only_reachable eq_refl eq_refl
              ltac:(vm_compute; reflexivity) eq_refl ltac:(simpl; lia))
    as (es & _ & Hlen & Hbody).
  exists es. split; [exact Hlen|exact Hbody].
Defined.

Example view_request_two_open_issues :
  serve UTC Fixture.net Cycle.repos_only (get "/view/top/2/open_issues")
  = Ok (written (Fixture.quoted "[['Netflix/C',8],['Netflix/D',4]]")).
Proof. vm_compute. reflexivity. Qed.

(** ** What reaches the client of the upstream's answer *)

(** Two upstreams that accept the same URLs and answer every request with
    the same error or with the same body; the status and the headers of their
    responses may differ. *)
Definition same_bodies (net1 net2 : Net) : Prop :=
  (forall url, NewRequest_err net1 url = NewRequest_err net2 url)
  /\ (forall req,
         match Do net1 req, Do net2 req with
         | inl err1, inl err2 => err1 = err2
         | inr resp1, inr resp2 => RespBody resp1 = RespBody resp2
         | _, _ => False
         end).

(** X15. Of the answer of the upstream only the body reaches the client:
    two upstreams whose answers differ in their status and in their headers
    only are served alike, for every request and in every state; a request
    that is passed through is answered with the status 200 whatever the
    status of the upstream was. *)
Theorem only_the_upstream_body_is_served (Local : Location) (net1 net2 : Net)
    (s : Server) (req : Incoming) :
  same_bodies net1 net2 ->
  serve Local net1 s req = serve Local net2 s req.
Proof.
  intros [Hreq Hdo]. unfold serve.
  destruct (mux (InPath req)); try reflexivity.
  unfold handleRoot, Forward.
  destruct (String.eqb (InPath req) "/"); [reflexivity|].
  rewrite Hreq. specialize (Hdo (forward_request req)).
  destruct (NewRequest_err net2 _); [reflexivity|].
  destruct (Do net1 (forward_request req)), (Do net2 (forward_request req));
    try done; by rewrite Hdo.
Qed.

Lemma only_the_upstream_body_is_served_witness :
  same_bodies (with_status 404 Fixture.net_echo_method) Fixture.net_echo_method
  /\ serve UTC (with_status 404 Fixture.net_echo_method) Cycle.first
       (get "/users/octocat")
     = Ok {| Status := 200; WHeader := []; WBody := "GET" |}.
Proof.
  assert (same_bodies (with_status 404 Fixture.net_echo_method)
            Fixture.net_echo_method) as Hsame.
  { split; [reflexivity|]. intros req. reflexivity. }
  split; [exact Hsame|].
  rewrite (only_the_upstream_body_is_served UTC _ _ Cycle.first
             (get "/users/octocat") Hsame).
  vm_compute. reflexivity.
Defined.

(** ** A refresh starts from nothing *)

Section FromScratch.

Context `{SliceSorter}.
Variable json : Json.

(** Two runs of the page loop that differ in the arena they start with. *)
Definition loops_agree (h1 h2 : list viewElm)
    (m1 m2 : outcome (loopVars * PagedGet)) : Prop :=
  match m1, m2 with
  | Ok (st1, g1), Ok (st2, g2) =>
      g1 = g2
      /\ exists rs new,
           mapM to_elm rs = Some new
           /\ st1 = loop_state h1 rs new /\ st2 = loop_state h2 rs new
  | Panic msg1, Panic msg2 => msg1 = msg2
  | OutOfFuel, OutOfFuel => True
  | _, _ => False
  end.

Lemma pagesLoop_arena net h1 h2 fuel :
  forall g rs new,
    mapM to_elm rs = Some new ->
    loops_agree h1 h2
      (pagesLoop net (repos_step json) fuel g (loop_state h1 rs new))
      (pagesLoop net (repos_step json) fuel g (loop_state h2 rs new)).
Proof.
  induction fuel as [|fuel IH]; intros g rs new Hnew; [done|].
  cbn [pagesLoop].
  destruct (GetPage net g) as [[[body next] g']| |];
    cbn [mbind outcome_bind obind]; [|done..].
  change (repos_step json (loop_state h1 rs new) body)
    with (process_page (loop_state h1 rs new) (Unmarshal json body).1).
  change (repos_step json (loop_state h2 rs new) body)
    with (process_page (loop_state h2 rs new) (Unmarshal json body).1).
  destruct (mapM to_elm (Unmarshal json body).1) as [es|] eqn:Hes.
  - rewrite !(process_page_loop_state _ rs new _ es Hes).
    cbn [mbind outcome_bind obind].
    pose proof (mapM_to_elm_app _ _ _ _ Hnew Hes) as Hnew'.
    destruct next; [by apply IH|].
    split; [reflexivity|]. eauto.
  - by rewrite !(process_page_None _ rs new _ Hes).
Qed.

End FromScratch.

(** X16. A refresh of the repositories keeps nothing of the state it starts
    from: run against the same upstream from two states with the same token,
    it ends for both or for none, and then publishes the same body and views
    of the same records in both; what an earlier cycle had cached has no part
    in it. *)
Theorem refresh_of_repositories_starts_from_nothing `{SliceSorter} (json : Json)
    (net : Net) (fuel : nat) (s1 s2 s1' : Server) :
  apiToken s1 = apiToken s2 ->
  refreshNetflixRepos json net fuel s1 = Ok s1' ->
  exists s2' : Server,
    refreshNetflixRepos json net fuel s2 = Ok s2'
    /\ caches s2' !! kGitHubNetflixRepos = caches s1' !! kGitHubNetflixRepos
    /\ Permutation (view_records s2' (topForks s2'))
                   (view_records s1' (topForks s1'))
    /\ Permutation (view_records s2' (lastUpdated s2'))
                   (view_records s1' (lastUpdated s1'))
    /\ Permutation (view_records s2' (topOpenIssues s2'))
                   (view_records s1' (topOpenIssues s1'))
    /\ Permutation (view_records s2' (topStars s2'))
                   (view_records s1' (topStars s1')).
Proof.
  intros Htok. rewrite !refreshNetflixRepos_eq, Htok, !loop_state_nil.
  pose proof (pagesLoop_arena json net (heap s1) (heap s2) fuel
                (NewPagedGet kGitHubNetflixRepos (apiToken s2)) [] [] eq_refl)
    as Hagree.
  destruct (pagesLoop net (repos_step json) fuel _ (loop_state (heap s1) [] []))
    as [[st1 g1]| |]; [|done..].
  destruct (pagesLoop net (repos_step json) fuel _ (loop_state (heap s2) [] []))
    as [[st2 g2]| |]; [|done..].
  destruct Hagree as (_ & rs & new & Hnew & -> & ->).
  intros [= <-]. eexists. split; [reflexivity|].
  unfold view_records.
  cbn [omap publishRepos loop_state caches heap topForks lastUpdated
       topOpenIssues topStars elms repos arena].
  split; [by rewrite !lookup_insert_eq|].
  repeat split; rewrite !sort_Slice_perm; by rewrite !omap_lookup_new.
Qed.

Lemma refresh_of_repositories_starts_from_nothing_witness :
  refreshNetflixRepos (H := InsertionSort.sorter) Fixture.json
    Fixture.net_page2_garbled 5 Fixture.s0
  = Ok (Cycle.from_Ok
          (refreshNetflixRepos (H := InsertionSort.sorter) Fixture.json
             Fixture.net_page2_garbled 5 Fixture.s0))
  /\ exists s2' : Server,
       refreshNetflixRepos (H := InsertionSort.sorter) Fixture.json
         Fixture.net_page2_garbled 5 Cycle.first = Ok s2'
       /\ caches s2' !! kGitHubNetflixRepos = Some "[A,B,D]".
Proof.
  assert (refreshNetflixRepos (H := InsertionSort.sorter) Fixture.json
            Fixture.net_page2_garbled 5 Fixture.s0
          = Ok (Cycle.from_Ok
                  (refreshNetflixRepos (H := InsertionSort.sorter) Fixture.json
                     Fixture.net_page2_garbled 5 Fixture.s0))) as Hr
    by (vm_compute; reflexivity).
  split; [exact Hr|].
  destruct (refresh_of_repositories_starts_from_nothing
              (H := InsertionSort.sorter) Fixture.json
              Fixture.net_page2_garbled 5 Fixture.s0 Cycle.first _ eq_refl Hr)
    as (s2' & Hs2' & Hbody & _).
  exists s2'. split; [exact Hs2'|].
  rewrite Hbody. vm_compute. reflexivity.
Defined.

(** * The error of [json.Unmarshal] *)

(** The codec of the fixture, but that the decoding of the page of C meets a
    field of the wrong type: [json.Unmarshal] goes on past it, leaves the
    repository in [pageRepos] and returns the error. *)
Definition json_type_error : Json := {|
  Unmarshal := fun body =>
    if String.eqb body "[C]"
    then ([Fixture.repoC],
          Some "json: cannot unmarshal string into Go struct field Repository.id of type int64")
    else Unmarshal Fixture.json body;
  Marshal := Marshal Fixture.json
|}.

Lemma pagesLoop_ext {St} net (step1 step2 : St -> string -> outcome St) :
  (forall st body, step1 st body = step2 st body) ->
  forall fuel g st, pagesLoop net step1 fuel g st = pagesLoop net step2 fuel g st.
Proof.
  intros Hext. induction fuel as [|fuel IH]; intros g st; [reflexivity|].
  cbn [pagesLoop].
  destruct (GetPage net g) as [[[body next] g']| |];
    cbn [mbind outcome_bind obind]; [|reflexivity..].
  rewrite Hext.
  destruct (step2 st body) as [st'| |]; cbn [mbind outcome_bind obind];
    [|reflexivity..].
  destruct next; [apply IH|reflexivity].
Qed.

(** C10, as the code has it. In the refresh of the repositories the error
    of [json.Unmarshal] goes nowhere: the refresh is the same for two codecs
    that leave the same entities in [pageRepos], whatever errors they return.
    Over a chain of pages, and given fuel for them, the loop reads every page,
    also those after a page that did not decode; a page that left no entity
    adds nothing; and when the entities that the pages left, with or without
    an error, have the fields that the loop reads, the refresh ends without a
    panic and publishes them all: their JSON as the body of the route, and
    views that hold one record for each. *)
Theorem unmarshal_error_is_dropped `{SliceSorter} (json : Json) (net : Net)
    (fuel : nat) (s : Server) (bodies : list string) :
  page_chain net (authHdr (NewPagedGet kGitHubNetflixRepos (apiToken s)))
    (api_url kGitHubNetflixRepos) bodies ->
  (length bodies <= fuel)%nat ->
  (forall json' : Json,
      (forall body, (Unmarshal json' body).1 = (Unmarshal json body).1) ->
      (forall rs, Marshal json' rs = Marshal json rs) ->
      refreshNetflixRepos json' net fuel s = refreshNetflixRepos json net fuel s)
  /\ (forall (pre post : list string) (bad : string),
         bodies = pre ++ bad :: post ->
         (Unmarshal json bad).1 = [] ->
         entities json bodies = entities json (pre ++ post))
  /\ (forall es : list viewElm,
         mapM to_elm (entities json bodies) = Some es ->
         exists s' : Server,
           refreshNetflixRepos json net fuel s = Ok s'
           /\ caches s' !! kGitHubNetflixRepos
              = Some (Marshal json (entities json bodies))
           /\ heap s' = heap s ++ es
           /\ Permutation (topForks s') (seq (length (heap s)) (length es))
           /\ Permutation (lastUpdated s') (seq (length (heap s)) (length es))
           /\ Permutation (topOpenIssues s') (seq (length (heap s)) (length es))
           /\ Permutation (topStars s') (seq (length (heap s)) (length es))).
Proof.
  intros Hchain Hfuel. split; [|split].
  - intros json' Hun Hma. rewrite !refreshNetflixRepos_eq.
    rewrite (pagesLoop_ext net (repos_step json') (repos_step json)).
    + destruct (pagesLoop net (repos_step json) fuel _ _) as [[st g]| |];
        [|reflexivity..].
      cbn [omap]. unfold publishRepos. by rewrite Hma.
    + intros st body. unfold repos_step. by rewrite Hun.
  - intros pre post bad -> Hbad. by apply entities_skip.
  - intros es Hes.
    rewrite (refreshNetflixRepos_chain json net fuel s _ Hchain Hfuel).
    rewrite loop_state_nil.
    rewrite (fold_pages_repos_step json (heap s) _ [] [] es Hes).
    eexists. split; [reflexivity|].
    cbn [omap publishRepos loop_state caches heap topForks lastUpdated
         topOpenIssues topStars elms repos arena app].
    split; [apply lookup_insert_eq|].
    split; [reflexivity|].
    repeat split; apply sort_Slice_perm.
Qed.

(** The second of three pages is HTML, which leaves no entity: the pages of
    A, B and of D are read and their records are published. *)
Lemma garbled_second_page_is_skipped :
  page_chain Fixture.net_page2_garbled "" (api_url kGitHubNetflixRepos)
    (["[A,B]"] ++ "<html>" :: ["[D]"])
  /\ Unmarshal Fixture.json "<html>"
     = ([], Some "invalid character '<' looking for beginning of value")
  /\ exists s' : Server,
       refreshNetflixRepos (H := InsertionSort.sorter) Fixture.json
         Fixture.net_page2_garbled 3 Fixture.s0 = Ok s'
       /\ caches s' !! kGitHubNetflixRepos = Some "[A,B,D]"
       /\ length (heap s') = 3%nat.
Proof.
  split; [exact Fixture_garbled_chain|]. split; [reflexivity|].
  destruct (proj2 (proj2
              (unmarshal_error_is_dropped (H := InsertionSort.sorter)
                 Fixture.json Fixture.net_page2_garbled 3 Fixture.s0
                 (["[A,B]"] ++ "<html>" :: ["[D]"])
                 Fixture_garbled_chain ltac:(simpl; lia)))
              [ {| name := "A"; forks := 5; updated := Fixture.jan15;
                   openIssues := 3; stars := 10 |};
                {| name := "B"; forks := 9; updated := Fixture.jul15;
                   openIssues := 0; stars := 2 |};
                {| name := "D"; forks := 1; updated := Fixture.jul15 - 1;
                   openIssues := 4; stars := 6 |} ]
              eq_refl)
    as (s' & Hs' & Hbody & Hheap & _).
  exists s'. split; [exact Hs'|]. split; [exact Hbody|].
  by rewrite Hheap.
Defined.

(** C10, against the claim: the page of C fails to decode, with a type
    error that leaves the repository in [pageRepos]. The refresh reports
    nothing, and the entity of the page is not left out: the body that is
    published holds C, and the views hold four records. *)
Lemma type_error_page_is_published :
  Unmarshal json_type_error "[C]"
  = ([Fixture.repoC],
     Some "json: cannot unmarshal string into Go struct field Repository.id of type int64")
  /\ omap (fun s => (caches s !! kGitHubNetflixRepos, length (topForks s)))
       (refreshNetflixRepos (H := InsertionSort.sorter) json_type_error
          Fixture.net 5 Fixture.s0)
     = Ok (Some "[A,B,C,D]", 4%nat).
Proof. split; vm_compute; reflexivity. Qed.

(** * A transport error in the fetch of a route *)

(** A walk from [url] that meets a transport error: the pages of [bodies]
    are read, each naming its successor, and the request for [failing], the
    next in the chain, comes back with the error [err]. *)
Inductive walk_fails (net : Net) (auth : string)
  : string -> list string -> string -> string -> Prop :=
| walk_fails_here (url err : string) :
    url <> "" ->
    NewRequest_err net url = None ->
    Do net (page_request {| nextLink := url; authHdr := auth |}) = inl err ->
    walk_fails net auth url [] url err
| walk_fails_later (url : string) (resp : Response) (url' : string)
    (bodies : list string) (failing err : string) :
    url <> "" ->
    NewRequest_err net url = None ->
    Do net (page_request {| nextLink := url; authHdr := auth |}) = inr resp ->
    LinkHeader (Header_Get (RespHeader resp) "Link") (Some url') ->
    walk_fails net auth url' bodies failing err ->
    walk_fails net auth url (RespBody resp :: bodies) failing err.

(** The panic of a refresh of the repositories whose walk fails after the
    pages of [bodies]: the one of the transport error, unless an entity of
    these pages could not be read before. *)
Definition refresh_panic (json : Json) (bodies : list string)
    (failing err : string) : string :=
  match mapM to_elm (entities json bodies) with
  | Some _ => transport_panic failing err
  | None => nil_dereference
  end.

(** Two outcomes of the same kind: both a state, or the same panic, or both
    out of fuel. *)
Definition outcomes_alike {A} (m1 m2 : outcome A) : Prop :=
  match m1, m2 with
  | Ok _, Ok _ => True
  | Panic msg1, Panic msg2 => msg1 = msg2
  | OutOfFuel, OutOfFuel => True
  | _, _ => False
  end.

Lemma walk_fails_GetPage net auth url bodies failing err :
  walk_fails net auth url bodies failing err ->
  GetPage net {| nextLink := failing; authHdr := auth |}
  = Panic (transport_panic failing err).
Proof.
  induction 1 as [url err Hne%String.eqb_neq Hreq Hdo|]; [|assumption].
  unfold GetPage. cbn [nextLink]. by rewrite Hne, Hreq, Hdo.
Qed.

Lemma pagesLoop_walk_fails {St} net (step : St -> string -> outcome St)
    auth url bodies failing err :
  walk_fails net auth url bodies failing err ->
  forall (fuel : nat) (st : St),
    (length bodies < fuel)%nat ->
    pagesLoop net step fuel {| nextLink := url; authHdr := auth |} st
    = fold_pages step st bodies
        ≫= (fun _ => Panic (transport_panic failing err)).
Proof.
  induction 1 as [url err Hne Hreq Hdo
                 |url resp url' bodies failing err Hne Hreq Hdo Hlink Hrest IH];
    intros fuel st Hfuel; (destruct fuel as [|fuel]; [simpl in Hfuel; lia|]);
    cbn [pagesLoop fold_pages].
  - rewrite (walk_fails_GetPage net auth url [] url err
               (walk_fails_here net auth url err Hne Hreq Hdo)).
    reflexivity.
  - rewrite (GetPage_LinkHeader net {| nextLink := url; authHdr := auth |}
               resp _ Hne Hreq Hdo Hlink).
    cbn [mbind outcome_bind obind advance authHdr].
    destruct (step st (RespBody resp)) as [st'| |];
      cbn [mbind outcome_bind obind]; [|reflexivity..].
    rewrite bool_decide_eq_true_2 by eauto.
    apply IH. simpl in Hfuel. lia.
Qed.

Section TransportErrors.

Context `{SliceSorter}.
Variable json : Json.

Lemma refreshRoute_walk_fails net fuel r s bodies failing err :
  walk_fails net (authHdr (NewPagedGet (Route_path r) (apiToken s)))
    (api_url (Route_path r)) bodies failing err ->
  r = NetflixRepos \/ bodies = [] ->
  (length bodies < fuel)%nat ->
  refreshRoute json net fuel r s = Panic (refresh_panic json bodies failing err).
Proof.
  intros Hwalk Hr Hfuel.
  destruct (decide (r = NetflixRepos)) as [->|Hne].
  - cbn [refreshRoute]. unfold refreshNetflixRepos.
    change (NewPagedGet kGitHubNetflixRepos (apiToken s))
      with {| nextLink := api_url (Route_path NetflixRepos);
              authHdr := authHdr (NewPagedGet (Route_path NetflixRepos)
                                    (apiToken s)) |}.
    rewrite (pagesLoop_walk_fails net (repos_step json) _ _ _ _ _ Hwalk fuel _
               Hfuel).
    rewrite loop_state_nil. unfold refresh_panic.
    destruct (mapM to_elm (entities json bodies)) as [es|] eqn:Hes.
    + by rewrite (fold_pages_repos_step json (heap s) _ [] [] es Hes).
    + by rewrite (fold_pages_None json (heap s) _ [] [] Hes).
  - destruct Hr as [->| ->]; [done|].
    pose proof (walk_fails_GetPage _ _ _ _ _ _ Hwalk) as Hget.
    inversion Hwalk as [url err' Hurl Hreq Hdo| ]; subst.
    assert (refreshSingle (Route_path r) net s
            = Panic (transport_panic (api_url (Route_path r)) err)) as Hsingle.
    { rewrite refreshSingle_eq.
      change (NewPagedGet (Route_path r) (apiToken s))
        with {| nextLink := api_url (Route_path r);
                authHdr := authHdr (NewPagedGet (Route_path r) (apiToken s)) |}.
      by rewrite Hget. }
    by destruct r.
Qed.

(** The outcome of the refresh of a route is of the same kind from any two
    states with the same token. *)
Lemma refreshRoute_alike net fuel r s1 s2 :
  apiToken s1 = apiToken s2 ->
  outcomes_alike (refreshRoute json net fuel r s1)
                 (refreshRoute json net fuel r s2).
Proof.
  intros Htok. destruct (decide (r = NetflixRepos)) as [->|Hne].
  - cbn [refreshRoute]. rewrite !refreshNetflixRepos_eq, Htok, !loop_state_nil.
    pose proof (pagesLoop_arena json net (heap s1) (heap s2) fuel
                  (NewPagedGet kGitHubNetflixRepos (apiToken s2)) [] [] eq_refl)
      as Hagree.
    destruct (pagesLoop net (repos_step json) fuel _ (loop_state (heap s1) [] []))
      as [[st1 g1]| |];
      destruct (pagesLoop net (repos_step json) fuel _
                  (loop_state (heap s2) [] [])) as [[st2 g2]| |];
      done.
  - assert (forall s, refreshRoute json net fuel r s
                      = refreshSingle (Route_path r) net s) as Hsingle
      by (intros s; by destruct r).
    rewrite !Hsingle, !refreshSingle_eq, Htok.
    by destruct (GetPage net (NewPagedGet (Route_path r) (apiToken s2)))
      as [[[body next] g]| |].
Qed.

Lemma refreshRoutes_panic net fuel r msg order s :
  refreshRoute json net fuel r s = Panic msg ->
  (forall r', refreshRoute json net fuel r' s <> OutOfFuel) ->
  r ∈ order ->
  forall s0, apiToken s0 = apiToken s ->
             is_Panic (refreshRoutes json net fuel order s0) = true.
Proof.
  intros Hpanic Hends. induction order as [|r0 order IH]; intros Hin s0 Htok.
  - by apply elem_of_nil in Hin.
  - cbn [refreshRoutes].
    pose proof (refreshRoute_alike net fuel r0 s0 s Htok) as Halike.
    destruct (refreshRoute json net fuel r0 s0) as [s1| |] eqn:H0;
      cbn [mbind outcome_bind obind].
    + apply elem_of_cons in Hin as [->|Hin].
      * rewrite Hpanic in Halike. done.
      * apply IH; [exact Hin|].
        rewrite <- Htok. by eapply refreshRoute_apiToken.
    + reflexivity.
    + specialize (Hends r0).
      by destruct (refreshRoute json net fuel r0 s).
Qed.

End TransportErrors.

(** C2, as the code has it. Let the fetch of a route meet a transport
    error: at its one request for a one-page route, at the request for the
    first or for any later page for the repositories. Then [GetPage] panics
    at that request, with the message of [log.Panicf], and so does the
    refresh of the route. Nothing recovers the panic: when the fetches of the
    routes all come to an end, the cycle panics in whatever order the four
    refreshes take the lock, and so does the scheduler loop, which runs no
    later cycle. The status of a response is not looked at: a page is read
    alike whatever its status. *)
Theorem transport_error_ends_the_run `{SliceSorter} (json : Json) (net : Net)
    (fuel : nat) (r : Route) (s : Server) (bodies : list string)
    (failing err : string) :
  walk_fails net (authHdr (NewPagedGet (Route_path r) (apiToken s)))
    (api_url (Route_path r)) bodies failing err ->
  r = NetflixRepos \/ bodies = [] ->
  (length bodies < fuel)%nat ->
  GetPage net {| nextLink := failing;
                 authHdr := authHdr (NewPagedGet (Route_path r) (apiToken s)) |}
  = Panic (transport_panic failing err)
  /\ refreshRoute json net fuel r s
     = Panic (refresh_panic json bodies failing err)
  /\ ((forall r' : Route, refreshRoute json net fuel r' s <> OutOfFuel) ->
      (forall order : list Route,
          r ∈ order ->
          is_Panic (refreshCaches_in json order net fuel s) = true)
      /\ (forall later : list Net,
             is_Panic (Run json (net :: later) fuel s) = true))
  /\ (forall (code : Z) (g : PagedGet),
         GetPage (with_status code net) g = GetPage net g).
Proof.
  intros Hwalk Hr Hfuel.
  pose proof (refreshRoute_walk_fails json net fuel r s bodies failing err
                Hwalk Hr Hfuel) as Hpanic.
  split; [by eapply walk_fails_GetPage|].
  split; [exact Hpanic|].
  split; [|intros code g; apply GetPage_with_status].
  intros Hends.
  assert (forall order, r ∈ order ->
            is_Panic (refreshCaches_in json order net fuel s) = true) as Hcycle.
  { intros order Hin. unfold refreshCaches_in.
    pose proof (refreshRoutes_panic json net fuel r _ order s Hpanic Hends Hin
                  s eq_refl) as Hp.
    by destruct (refreshRoutes json net fuel order s). }
  split; [exact Hcycle|].
  intros later. cbn [Run].
  pose proof (Hcycle [Root; Netflix; NetflixRepos; NetflixMembers]
                ltac:(destruct r; apply list_elem_of_In; simpl; tauto)) as Hp.
  fold (refreshCaches json net fuel s) in Hp.
  by destruct (refreshCaches json net fuel s).
Qed.

(** The fixture when the second page of the repositories cannot be
    fetched. *)
Definition net_page2_down : Net := {|
  NewRequest_err := fun _ => None;
  Do := fun req =>
    if String.eqb (URL req) Fixture.page2
    then inl "read tcp: connection reset by peer"
    else Do Fixture.net req
|}.

Lemma net_page2_down_walk :
  walk_fails net_page2_down "" (api_url kGitHubNetflixRepos) ["[A,B]"]
    Fixture.page2 "read tcp: connection reset by peer".
Proof.
  apply (walk_fails_later net_page2_down "" Fixture.page1
           (Fixture.response Fixture.links1 "[A,B]") Fixture.page2);
    [discriminate|reflexivity|reflexivity| |].
  { exact (LinkHeader_entries Fixture.links1 ltac:(discriminate) eq_refl). }
  apply walk_fails_here; [discriminate|reflexivity|reflexivity].
Defined.

(** A transport error at the second of the pages of the repositories, in a
    cycle that follows a first one. *)
Lemma transport_error_on_second_page :
  walk_fails net_page2_down "" (api_url kGitHubNetflixRepos) ["[A,B]"]
    Fixture.page2 "read tcp: connection reset by peer"
  /\ (forall r' : Route,
         refreshRoute (H := InsertionSort.sorter) Fixture.json net_page2_down 5
           r' Cycle.first <> OutOfFuel)
  /\ refreshRoute (H := InsertionSort.sorter) Fixture.json net_page2_down 5
       NetflixRepos Cycle.first
     = Panic (transport_panic Fixture.page2 "read tcp: connection reset by peer")
  /\ is_Panic (refreshCaches_in (H := InsertionSort.sorter) Fixture.json
                 [NetflixMembers; Root; NetflixRepos; Netflix]
                 net_page2_down 5 Cycle.first) = true.
Proof.
  assert (forall r' : Route,
            refreshRoute (H := InsertionSort.sorter) Fixture.json
              net_page2_down 5 r' Cycle.first <> OutOfFuel) as Hends.
  { intros r'. destruct r'; vm_compute; discriminate. }
  pose proof (transport_error_ends_the_run (H := InsertionSort.sorter)
                Fixture.json net_page2_down 5 NetflixRepos Cycle.first
                ["[A,B]"] Fixture.page2 "read tcp: connection reset by peer"
                net_page2_down_walk (or_introl eq_refl) ltac:(simpl; lia))
    as (_ & Hroute & Hrun & _).
  split; [exact net_page2_down_walk|].
  split; [exact Hends|].
  split; [exact Hroute|].
  apply (proj1 (Hrun Hends)).
  apply list_elem_of_In. simpl. tauto.
Defined.

(** * Readiness *)

Definition all_routes : list Route :=
  [Root; Netflix; NetflixRepos; NetflixMembers].

Section Readiness.

Context `{SliceSorter}.
Variable json : Json.

(** The states between the cycles of the scheduler loop, with the number
    of cycles that have come to their end: the new server, and the state that
    a cycle leaves when the four refreshes, in some order, have all returned
    and the server is marked as ready. *)
Inductive at_boundary : nat -> Server -> Prop :=
| at_boundary_new (port : Z) (apiToken : string) :
    at_boundary 0 (NewServer port apiToken)
| at_boundary_cycle (n : nat) (s s' : Server) (order : list Route)
    (net : Net) (fuel : nat) :
    at_boundary n s ->
    Permutation order all_routes ->
    refreshCaches_in json order net fuel s = Ok s' ->
    at_boundary (S n) s'.

(** The states that a reader can see after [n] cycles have ended: a state
    between two cycles, or a state in the course of the next cycle, when the
    refreshes of [done], the first of some order of the routes, have
    returned. The cycle may go on to fail. *)
Definition visible (n : nat) (s' : Server) : Prop :=
  exists (s : Server) (order done : list Route) (net : Net) (fuel : nat),
    at_boundary n s
    /\ Permutation order all_routes
    /\ done `prefix_of` order
    /\ refreshRoutes json net fuel done s = Ok s'.

Lemma refreshRoute_stores net fuel r s s' :
  refreshRoute json net fuel r s = Ok s' ->
  is_Some (caches s' !! Route_path r)
  /\ (forall path, is_Some (caches s !! path) -> is_Some (caches s' !! path)).
Proof.
  intros Hr.
  assert (exists body, caches s' = <[Route_path r := body]> (caches s))
    as [body ->].
  { destruct (decide (r = NetflixRepos)) as [->|Hne].
    - apply refreshNetflixRepos_Ok_inv in Hr as (st & _ & ->). by eexists.
    - apply (refreshRoute_single_inv json) in Hr
        as (body & next & g' & _ & ->); [|exact Hne].
      by eexists. }
  split; [by rewrite lookup_insert_eq|].
  intros path Hpath. rewrite lookup_insert. by case_decide.
Qed.

Lemma refreshRoutes_keeps net fuel rs s s' path :
  refreshRoutes json net fuel rs s = Ok s' ->
  is_Some (caches s !! path) -> is_Some (caches s' !! path).
Proof.
  revert s. induction rs as [|r rs IH]; intros s Hrs Hpath;
    cbn [refreshRoutes] in Hrs.
  - by injection Hrs as <-.
  - destruct (refreshRoute json net fuel r s) as [s1| |] eqn:H1;
      cbn [mbind outcome_bind obind] in Hrs; [|done..].
    apply (IH s1 Hrs).
    exact (proj2 (refreshRoute_stores net fuel r s s1 H1) path Hpath).
Qed.

Lemma refreshRoutes_stores net fuel rs r s s' :
  r ∈ rs ->
  refreshRoutes json net fuel rs s = Ok s' ->
  is_Some (caches s' !! Route_path r).
Proof.
  revert s. induction rs as [|r0 rs IH]; intros s Hin Hrs;
    [by apply elem_of_nil in Hin|].
  cbn [refreshRoutes] in Hrs.
  destruct (refreshRoute json net fuel r0 s) as [s1| |] eqn:H1;
    cbn [mbind outcome_bind obind] in Hrs; [|done..].
  apply elem_of_cons in Hin as [->|Hin]; [|by apply (IH s1)].
  apply (refreshRoutes_keeps net fuel rs s1 s' _ Hrs).
  exact (proj1 (refreshRoute_stores net fuel r0 s s1 H1)).
Qed.

(** What a cycle stores for a one-page route is the body that the upstream
    gave to its request. *)
Lemma refreshRoutes_stores_body net fuel rs r s s' :
  r <> NetflixRepos ->
  NoDup rs ->
  r ∈ rs ->
  refreshRoutes json net fuel rs s = Ok s' ->
  exists resp,
    Do net (page_request (NewPagedGet (Route_path r) (apiToken s))) = inr resp
    /\ caches s' !! Route_path r = Some (RespBody resp).
Proof.
  intros Hr. revert s. induction rs as [|r0 rs IH]; intros s Hnd Hin Hrs;
    [by apply elem_of_nil in Hin|].
  cbn [refreshRoutes] in Hrs.
  destruct (refreshRoute json net fuel r0 s) as [s1| |] eqn:H1;
    cbn [mbind outcome_bind obind] in Hrs; [|done..].
  apply NoDup_cons in Hnd as [Hnotin Hnd].
  apply elem_of_cons in Hin as [->|Hin].
  - pose proof H1 as H1'.
    apply (refreshRoute_single_inv json) in H1'
      as (body & next & g' & Hget & ->); [|exact Hr].
    apply GetPage_Ok_inv in Hget as (_ & resp & Hdo & ->).
    exists resp. split; [exact Hdo|].
    rewrite (refreshRoutes_frame json net fuel rs r0 _ s' Hnotin Hrs).
    cbn [set_cache caches]. by rewrite lookup_insert_eq.
  - destruct (IH s1 Hnd Hin Hrs) as (resp & Hdo & Hbody).
    exists resp. split; [|exact Hbody].
    by rewrite <- (refreshRoute_apiToken json net fuel r0 s s1 H1).
Qed.

Lemma markReady_caches s : caches (markReady s) = caches s.
Proof. unfold markReady. by destruct (ready s). Qed.

Lemma at_boundary_ready n s :
  at_boundary n s ->
  (ready s = true <-> (0 < n)%nat)
  /\ ((0 < n)%nat -> forall r, is_Some (caches s !! Route_path r)).
Proof.
  intros [port tok|n0 s0 s' order net fuel _ Hperm Hcycle].
  - split; [|lia]. cbn [NewServer ready]. split; [done|lia].
  - split.
    + split; [lia|]. intros _. by eapply refreshCaches_in_ready.
    + intros _ r. unfold refreshCaches_in in Hcycle.
      destruct (refreshRoutes json net fuel order s0) as [s1| |] eqn:Hrs;
        cbn [mbind outcome_bind obind] in Hcycle; [|done..].
      injection Hcycle as <-. rewrite markReady_caches.
      apply (refreshRoutes_stores net fuel order r s0 s1); [|exact Hrs].
      rewrite Hperm. destruct r; apply list_elem_of_In; simpl; tauto.
Qed.

Lemma pagesLoop_with_status {St} code net (step : St -> string -> outcome St) :
  forall fuel g st,
    pagesLoop (with_status code net) step fuel g st = pagesLoop net step fuel g st.
Proof.
  induction fuel as [|fuel IH]; intros g st; [reflexivity|].
  cbn [pagesLoop]. rewrite GetPage_with_status.
  destruct (GetPage net g) as [[[body next] g']| |];
    cbn [mbind outcome_bind obind]; [|reflexivity..].
  destruct (step st body) as [st'| |]; cbn [mbind outcome_bind obind];
    [|reflexivity..].
  destruct next; [apply IH|reflexivity].
Qed.

Lemma refreshRoutes_with_status code net fuel rs :
  forall s,
    refreshRoutes json (with_status code net) fuel rs s
    = refreshRoutes json net fuel rs s.
Proof.
  induction rs as [|r rs IH]; intros s; [reflexivity|].
  cbn [refreshRoutes].
  assert (refreshRoute json (with_status code net) fuel r s
          = refreshRoute json net fuel r s) as ->.
  { destruct r; cbn [refreshRoute];
      unfold refreshRoot, refreshNetflix, refreshNetflixMembers, refreshSingle,
        refreshNetflixRepos;
      by rewrite ?GetPage_with_status, ?pagesLoop_with_status. }
  destruct (refreshRoute json net fuel r s); cbn [mbind outcome_bind obind];
    [apply IH|reflexivity..].
Qed.

End Readiness.

(** C4. Count the cycles of the scheduler loop that have come to their end,
    each having fetched and stored its four routes. In every state that a
    reader can see, between two cycles or in the course of one, the ready flag
    is true exactly when at least one cycle has ended: it is false in the new
    server and throughout the first cycle, and true ever after, also in the
    states of a later cycle that then fails; when it is true, a body is
    cached for each of the four routes; and the health check answers 200 when
    it is true and 503 when it is not. The cycle that sets the flag has
    stored, for each one-page route, the body that the upstream gave. Of the
    failures of a route, a transport error keeps the cycle from its end, and
    a status that is no success is not noticed: the cycle runs as it does
    when the status is 200. *)
Theorem readiness_flag `{SliceSorter} (json : Json) :
  (forall (n : nat) (s : Server),
      visible json n s ->
      (ready s = true <-> (0 < n)%nat)
      /\ (ready s = true -> forall r : Route, is_Some (caches s !! Route_path r))
      /\ handleHealthCheck s
         = {| Status := if ready s then 200 else 503;
              WHeader := []; WBody := "" |})
  /\ (forall (order : list Route) (net : Net) (fuel : nat) (s s' : Server),
         Permutation order all_routes ->
         refreshCaches_in json order net fuel s = Ok s' ->
         ready s' = true
         /\ is_Some (caches s' !! kGitHubNetflixRepos)
         /\ (forall r : Route,
                r <> NetflixRepos ->
                exists resp : Response,
                  Do net (page_request
                            (NewPagedGet (Route_path r) (apiToken s)))
                  = inr resp
                  /\ caches s' !! Route_path r = Some (RespBody resp)))
  /\ (forall (order : list Route) (net : Net) (fuel : nat) (s : Server)
         (r : Route) (err : string),
         r ∈ order ->
         NewRequest_err net (api_url (Route_path r)) = None ->
         Do net (page_request (NewPagedGet (Route_path r) (apiToken s)))
         = inl err ->
         (0 < fuel)%nat ->
         is_Ok (refreshCaches_in json order net fuel s) = false)
  /\ (forall (code : Z) (order : list Route) (net : Net) (fuel : nat)
         (s : Server),
         refreshCaches_in json order (with_status code net) fuel s
         = refreshCaches_in json order net fuel s).
Proof.
  split; [|split; [|split]];
    [| | |intros code order net fuel s; unfold refreshCaches_in;
          by rewrite refreshRoutes_with_status].
  - intros n s' (s & order & done & net & fuel & Hb & _ & _ & Hrs).
    destruct (at_boundary_ready json n s Hb) as [Hready Hcached].
    pose proof (refreshRoutes_ready json net fuel done s s' Hrs) as Heq.
    split; [by rewrite Heq|].
    split.
    + intros Hs' r.
      apply (refreshRoutes_keeps json net fuel done s s' _ Hrs).
      apply Hcached. apply Hready. by rewrite <- Heq.
    + unfold handleHealthCheck. by destruct (ready s').
  - intros order net fuel s s' Hperm Hcycle.
    split; [by eapply refreshCaches_in_ready|].
    unfold refreshCaches_in in Hcycle.
    destruct (refreshRoutes json net fuel order s) as [s1| |] eqn:Hrs;
      cbn [mbind outcome_bind obind] in Hcycle; [|done..].
    injection Hcycle as <-. rewrite markReady_caches.
    assert (forall r, r ∈ order) as Hall.
    { intros r. rewrite Hperm.
      destruct r; apply list_elem_of_In; simpl; tauto. }
    split; [exact (refreshRoutes_stores json net fuel order NetflixRepos s s1
                     (Hall _) Hrs)|].
    intros r Hr.
    apply (refreshRoutes_stores_body json net fuel order r s s1 Hr);
      [|apply Hall|exact Hrs].
    rewrite Hperm. unfold all_routes.
    repeat (apply NoDup_cons; split;
            [intros Hin%list_elem_of_In; simpl in Hin;
             intuition discriminate|]).
    apply NoDup_nil_2.
  - intros order net fuel s r err Hin Hreq Hdo Hfuel. unfold refreshCaches_in.
    pose proof (refreshRoutes_transport_error json net fuel r err order Hin s
                  Hreq Hdo Hfuel) as Hno.
    by destruct (refreshRoutes json net fuel order s).
Qed.

Lemma Cycle_first_at_boundary :
  at_boundary (H := InsertionSort.sorter) Fixture.json 1 Cycle.first.
Proof.
  apply (at_boundary_cycle Fixture.json 0 Fixture.s0 Cycle.first all_routes
           Fixture.net 5);
    [apply at_boundary_new|reflexivity|vm_compute; reflexivity].
Defined.

(** The state in the course of a second cycle in which the root route is
    down, when the refreshes of two other routes have returned. *)
Definition second_cycle_before_the_crash : Server :=
  Cycle.from_Ok
    (refreshRoutes (H := InsertionSort.sorter) Fixture.json
       Fixture.net_root_down 5 [Netflix; NetflixRepos] Cycle.first).

(** The flag in the course of the first cycle, and in the course of a
    second cycle that goes on to panic. *)
Lemma readiness_flag_first_cycles :
  (visible (H := InsertionSort.sorter) Fixture.json 0 Cycle.repos_only
   /\ ready Cycle.repos_only = false
   /\ Status (handleHealthCheck Cycle.repos_only) = 503)
  /\ (visible (H := InsertionSort.sorter) Fixture.json 1
        second_cycle_before_the_crash
      /\ ready second_cycle_before_the_crash = true
      /\ Status (handleHealthCheck second_cycle_before_the_crash) = 200
      /\ is_Ok (refreshCaches_in (H := InsertionSort.sorter) Fixture.json
                  [Netflix; NetflixRepos; Root; NetflixMembers]
                  Fixture.net_root_down 5 Cycle.first) = false).
Proof.
  destruct (readiness_flag (H := InsertionSort.sorter) Fixture.json)
    as (Hvisible & _ & Hfails & _).
  assert (visible (H := InsertionSort.sorter) Fixture.json 0 Cycle.repos_only)
    as Hv0.
  { exists Fixture.s0, [NetflixRepos; Root; Netflix; NetflixMembers],
      [NetflixRepos], Fixture.net, 5%nat.
    split; [apply at_boundary_new|].
    split; [|split; [by exists [Root; Netflix; NetflixMembers]
                    |vm_compute; reflexivity]].
    apply (Permutation_trans
             (l' := [Root; NetflixRepos; Netflix; NetflixMembers]));
      [apply perm_swap|apply perm_skip, perm_swap]. }
  assert (Permutation [Netflix; NetflixRepos; Root; NetflixMembers] all_routes)
    as Hperm.
  { apply (Permutation_trans
             (l' := [Netflix; Root; NetflixRepos; NetflixMembers]));
      [apply perm_skip, perm_swap|apply perm_swap]. }
  assert (visible (H := InsertionSort.sorter) Fixture.json 1
            second_cycle_before_the_crash) as Hv1.
  { exists Cycle.first, [Netflix; NetflixRepos; Root; NetflixMembers],
      [Netflix; NetflixRepos], Fixture.net_root_down, 5%nat.
    split; [exact Cycle_first_at_boundary|].
    split; [exact Hperm|].
    split; [by exists [Root; NetflixMembers]|vm_compute; reflexivity]. }
  split.
  - destruct (Hvisible 0%nat Cycle.repos_only Hv0) as (Hready & _ & Hhealth).
    split; [exact Hv0|].
    assert (ready Cycle.repos_only = false) as Hfalse.
    { destruct (ready Cycle.repos_only); [|reflexivity].
      pose proof (proj1 Hready eq_refl). lia. }
    split; [exact Hfalse|]. by rewrite Hhealth, Hfalse.
  - destruct (Hvisible 1%nat second_cycle_before_the_crash Hv1)
      as (Hready & _ & Hhealth).
    split; [exact Hv1|].
    assert (ready second_cycle_before_the_crash = true) as Htrue
      by (apply Hready; lia).
    split; [exact Htrue|]. split; [by rewrite Hhealth, Htrue|].
    apply (Hfails [Netflix; NetflixRepos; Root; NetflixMembers]
             Fixture.net_root_down 5%nat Cycle.first Root
             "dial tcp: i/o timeout");
      [apply list_elem_of_In; simpl; tauto|reflexivity|reflexivity|lia].
Defined.
